(** * FRAGMENT-MNP sensitivity-analysis notebook: a shallow embedding

    The notebook [notebooks/fragmentmnp-app.ipynb] holds a self-contained
    fragmentation model: a log-spaced particle size distribution [d], a
    power-law fragmentation rate [k_frag], an even-split fragment size
    distribution matrix [fsd], the right-hand side [f] of the mass balance
    and a call to [solve_ivp].  The app notebook of the same file hands its
    inputs to the constructor of the fragmentmnp package, which is not part
    of the repository and is a parameter here ([App]).

    Python floats are idealised as real numbers ([R]); [x ** y] on a positive
    base is [Rpower x y].  Python integers are [Z], array indices and lengths
    are [nat].  Python exceptions are values of [PyError]. *)

From Stdlib Require Import String.
From Stdlib Require Import Reals Lra Lia List ZArith Bool Arith.
From Stdlib Require Import Permutation.
Import ListNotations.

Open Scope R_scope.

(** ** Errors *)

Inductive PyError : Type :=
| ValueError      (* numpy: negative number of samples *)
| IndexError      (* index out of bounds *)
| DivideByZero.   (* a division whose divisor is zero *)

Definition result (A : Type) : Type := (PyError + A)%type.

Definition ret {A : Type} (a : A) : result A := inr a.

Definition raise {A : Type} (e : PyError) : result A := inl e.

Definition bind {A B : Type} (m : result A) (k : A -> result B) : result B :=
  match m with
  | inl e => inl e
  | inr a => k a
  end.

Notation "x <- m ;; k" := (bind m (fun x => k))
  (at level 61, m at next level, right associativity).

(** [for k in l: s = body(k, s)] *)
Fixpoint for_each {S : Type} (l : list nat) (body : nat -> S -> result S)
  (s : S) : result S :=
  match l with
  | [] => ret s
  | k :: l' => s' <- body k s ;; for_each l' body s'
  end.

(** ** The numpy operations the notebook uses *)

Module Np.

Definition vec : Type := list R.
Definition matrix : Type := list (list R).

(** [v[i]] and [M[i, j]] for indices in range. *)
Definition get (v : vec) (i : nat) : R := nth i v 0.
Definition row (M : matrix) (i : nat) : vec := nth i M [].
Definition get2 (M : matrix) (i j : nat) : R := get (row M i) j.

(** [M[:, k]] *)
Definition col (M : matrix) (k : nat) : vec := map (fun r => get r k) M.

(** In-place store [l[i] = x] for [i] in range (out of range the list is
    left as it is; [setitem] below is the checked version). *)
Fixpoint set_item {A : Type} (l : list A) (i : nat) (x : A) : list A :=
  match l, i with
  | [], _ => []
  | _ :: t, O => x :: t
  | h :: t, S i' => h :: set_item t i' x
  end.

(** [v[i] = x] with a Python integer index: a negative index counts from the
    end, an index outside [-len, len) raises IndexError. *)
Definition setitem (v : vec) (i : Z) (x : R) : result vec :=
  let n := Z.of_nat (length v) in
  if ((0 <=? i) && (i <? n))%Z then ret (set_item v (Z.to_nat i) x)
  else if ((- n <=? i) && (i <? 0))%Z then ret (set_item v (Z.to_nat (n + i)) x)
  else raise IndexError.

Definition arange (n : nat) : list nat := seq 0 n.
Definition full (n : nat) (x : R) : vec := repeat x n.
Definition zeros2 (r c : nat) : matrix := repeat (full c 0) r.

(** [np.empty(n)]: the contents are unspecified; zeros stand for them. *)
Definition empty (n : nat) : vec := full n 0.

Definition sum (v : vec) : R := fold_right Rplus 0 v.

(** Element-wise product of two arrays of the same shape. *)
Fixpoint mul (a b : vec) : vec :=
  match a, b with
  | x :: a', y :: b' => x * y :: mul a' b'
  | _, _ => []
  end.

(** [x ** y] *)
Definition power (x y : R) : R := Rpower x y.

(** [np.linspace(start, stop, num)] for [num >= 0]: [num] evenly spaced
    samples, the last one set to [stop] when [num > 1]. *)
Definition linspace (start stop : R) (num : nat) : vec :=
  match num with
  | O => []
  | S O => [start]
  | S div =>
      let step := (stop - start) / INR div in
      map (fun i => INR i * step + start) (arange div) ++ [stop]
  end.

(** [np.logspace(start, stop, num)]: [10 ** linspace(start, stop, num)];
    a negative [num] raises ValueError. *)
Definition logspace (start stop : R) (num : Z) : result vec :=
  if (num <? 0)%Z then raise ValueError
  else ret (map (power 10) (linspace start stop (Z.to_nat num))).

(** Sorting, for the median. *)
Fixpoint insert (x : R) (l : vec) : vec :=
  match l with
  | [] => [x]
  | y :: t => if Rle_dec x y then x :: l else y :: insert x t
  end.

Definition sort (l : vec) : vec := fold_right insert [] l.

(** [np.median(a)]: the middle element of the sorted array, or the mean of
    the two middle ones.  (Of an empty array numpy returns nan with a
    warning; here the value is 0, and it is never used: every array computed
    from it is then empty.) *)
Definition median (a : vec) : R :=
  let s := sort a in
  let n := length a in
  if Nat.even n then (get s (n / 2 - 1) + get s (n / 2)) / 2
  else get s (n / 2).

Fixpoint mapi_from {A B : Type} (i : nat) (g : nat -> A -> B) (l : list A)
  : list B :=
  match l with
  | [] => []
  | x :: t => g i x :: mapi_from (S i) g t
  end.

(** [np.triu(M, k)]: entries below the [k]-th diagonal are zeroed, that is
    [M[i, j]] is kept when [j - i >= k]. *)
Definition triu (M : matrix) (k : Z) : matrix :=
  mapi_from 0 (fun i r =>
    mapi_from 0 (fun j x =>
      if (k <=? Z.of_nat j - Z.of_nat i)%Z then x else 0) r) M.

End Np.

Import Np.

(** ** The model of the notebook *)

(** [d = np.logspace(K_range[1], K_range[0], K)]: from the largest diameter
    down to the smallest. *)
Definition d (K : Z) (K_range : Z * Z) : result vec :=
  logspace (IZR (snd K_range)) (IZR (fst K_range)) K.

Definition d_median (d : vec) : R := median d.

(** [k_prop = _k_frag / (d_median ** (2 * theta1))] *)
Definition k_prop (_k_frag theta1 : R) (d : vec) : R :=
  _k_frag / power (d_median d) (2 * theta1).

(** [k_frag = k_prop * d ** (2 * theta1)] *)
Definition k_frag (_k_frag theta1 : R) (d : vec) : vec :=
  map (fun dk => k_prop _k_frag theta1 d * power dk (2 * theta1)) d.

(** [if not loss: k_frag[K-1] = 0.0] *)
Definition no_loss (loss : bool) (K : Z) (k_frag : vec) : result vec :=
  if negb loss then setitem k_frag (K - 1) 0 else ret k_frag.

(** The value stored in row [k] of [fsd]:
    [1 / (K - k - 1) if (K - k) != 1 else 0]. *)
Definition fsd_value (K k : nat) : result R :=
  let Kk := (Z.of_nat K - Z.of_nat k)%Z in
  if negb (Kk =? 1)%Z then
    let divisor := (Kk - 1)%Z in
    if (divisor =? 0)%Z then raise DivideByZero else ret (1 / IZR divisor)
  else ret 0.

(** [fsd = np.zeros((K,K))], the loop over the rows, then [np.triu(fsd, k=1)]. *)
Definition fsd (K : nat) : result matrix :=
  M <- for_each (arange K)
         (fun k M => v <- fsd_value K k ;; ret (set_item M k (full K v)))
         (zeros2 K K) ;;
  ret (triu M 1).

Record Model : Type := mkModel {
  m_d : vec;
  m_k_frag : vec;
  m_n_0 : vec;
  m_fsd : matrix
}.

(** The body of [fragmentmnp] up to the definition of [f].  The arguments
    [T] and [bar_ts] reach only [solve_ivp] and the charts. *)
Definition fragmentmnp (K : Z) (K_range : Z * Z) (_k_frag theta1 _n_0 : R)
  (loss : bool) : result Model :=
  d_ <- d K K_range ;;
  k_frag_ <- no_loss loss K (k_frag _k_frag theta1 d_) ;;
  let n_0 := full (Z.to_nat K) _n_0 in
  fsd_ <- fsd (Z.to_nat K) ;;
  ret (mkModel d_ k_frag_ n_0 fsd_).

(** The right-hand side [f(t, n)], closed over [k_frag] and [fsd]. *)
Definition f (k_frag : vec) (fsd : matrix) (t : R) (n : vec) : vec :=
  let N := length n in
  let dndt := empty N in
  fold_left
    (fun dndt k =>
       set_item dndt k
         (- get k_frag k * get n k + sum (mul (mul (col fsd k) k_frag) n)))
    (arange N) dndt.

(** [solve_ivp(fun, t_span, y0, t_eval)] is taken by its contract: the
    columns [soln.y[:, j]] are the values [y (t_eval[j])] of a solution [y]
    of the initial value problem [y' = fun(t, y)], [y(t0) = y0] on [t_span].
    This is the exact solution, which the default method RK45 approximates
    within its tolerances; what is stated through it is stated of the exact
    solution.  [rk_outputs] below describes what a Runge-Kutta method
    computes. *)
Definition solve_ivp (fun_ : R -> vec -> vec) (t_span : R * R) (y0 : vec)
  (y : R -> vec) : Prop :=
  y (fst t_span) = y0 /\
  (forall t, length (y t) = length y0) /\
  forall t k, fst t_span <= t <= snd t_span -> (k < length y0)%nat ->
    derivable_pt_lim (fun s => get (y s) k) t (get (fun_ t (y t)) k).


(** ** The equation of the specification, in its words *)

(** [Σ_{i < N} g i] *)
Fixpoint big_sum (N : nat) (g : nat -> R) : R :=
  match N with
  | O => 0
  | S N' => big_sum N' g + g N'
  end.

(** [dc_k/dt = -k_frag[k]*c[k] + Σ_i f[i][k]*k_frag[i]*c[i] - k_diss[k]*c[k]] *)
Definition spec_dcdt (k_frag k_diss : vec) (fsd : matrix) (c : vec) (k : nat)
  : R :=
  - get k_frag k * get c k
  + big_sum (length c) (fun i => get2 fsd i k * get k_frag i * get c i)
  - get k_diss k * get c k.

(** The spread of the rates: coarsest class over finest class. *)
Definition spread (k_frag : vec) : R :=
  get k_frag 0 / get k_frag (length k_frag - 1).

(** ** Closed forms of what the code computes *)

(** The even-split rule in the words of the specification: row [i] holds
    [1/(K - i - 1)] in the columns strictly finer than [i], 0 elsewhere. *)
Definition even_split_entry (K i j : nat) : R :=
  if (i <? j)%nat then 1 / INR (K - i - 1) else 0.

Definition even_split (K : nat) : matrix :=
  map (fun i => map (fun j => even_split_entry K i j) (seq 0 K)) (seq 0 K).

(** The value the loop stores in row [k], with the guard resolved. *)
Definition row_value (K k : nat) : R :=
  if (K - k =? 1)%nat then 0 else 1 / INR (K - k - 1).

(** The diameters for a non-negative number of classes. *)
Definition diameters (K : Z) (K_range : Z * Z) : vec :=
  map (power 10)
    (linspace (IZR (snd K_range)) (IZR (fst K_range)) (Z.to_nat K)).

(** The rates the right-hand side closes over. *)
Definition final_k_frag (K : Z) (K_range : Z * Z) (_k_frag theta1 : R)
  (loss : bool) : vec :=
  let kf := k_frag _k_frag theta1 (diameters K K_range) in
  if loss then kf else set_item kf (Z.to_nat K - 1) 0.

(** ** The output of the run *)

(** [t_eval = np.arange(0, T)]: the times 0, 1, ..., T-1. *)
Definition t_eval (T : Z) : list R := map INR (seq 0 (Z.to_nat T)).

(** [soln.y], column by column: under the contract of [solve_ivp] the column
    [soln.y[:, j]] is the state of the trajectory at [t_eval[j]]. *)
Definition soln_y (y : R -> vec) (T : Z) : list vec := map y (t_eval T).

(** [a[i]] with a Python integer index: a negative index counts from the
    end, an index outside [-len, len) raises IndexError. *)
Definition getitem {A : Type} (l : list A) (i : Z) : result A :=
  let n := Z.of_nat (length l) in
  let at_ (j : Z) :=
    match nth_error l (Z.to_nat j) with
    | Some x => ret x
    | None => raise IndexError
    end in
  if ((0 <=? i) && (i <? n))%Z then at_ i
  else if ((- n <=? i) && (i <? 0))%Z then at_ (n + i)%Z
  else raise IndexError.

(** The data of the bar chart: [if bar_ts < T: ... y=soln.y[:,bar_ts]];
    [None] when no bar chart is drawn. *)
Definition bar_chart (soln_y : list vec) (bar_ts T : Z) : result (option vec) :=
  if (bar_ts <? T)%Z then
    column <- getitem soln_y bar_ts ;; ret (Some column)
  else ret None.

(** A strictly decreasing array. *)
Definition descending (l : vec) : Prop :=
  forall i j, (i < j)%nat -> (j < length l)%nat -> get l j < get l i.

(** ** Runge-Kutta methods *)

Fixpoint vadd (a b : vec) : vec :=
  match a, b with
  | x :: a', y :: b' => x + y :: vadd a' b'
  | _, _ => []
  end.

Definition vscale (c : R) (a : vec) : vec := map (Rmult c) a.

(** What a Runge-Kutta method computes from a state [y]: [y] plus a weighted
    sum of values of the right-hand side, each taken at some time [t] and
    stage state [Y] with some weight [w] (the step size times a coefficient
    of the method).  Both the accepted steps of RK45, the default method of
    [solve_ivp], and the values its dense output gives at the times of
    [t_eval] have this form. *)
Fixpoint rk_update (fun_ : R -> vec -> vec) (y : vec)
  (stages : list (R * (R * vec))) : vec :=
  match stages with
  | [] => y
  | (w, (t, Y)) :: rest => rk_update fun_ (vadd y (vscale w (fun_ t Y))) rest
  end.

(** The states such a method can produce from the initial state [y0], with
    any choice of steps, weights and stage states of the right length. *)
Inductive rk_outputs (fun_ : R -> vec -> vec) (y0 : vec) : vec -> Prop :=
| rk_initial : rk_outputs fun_ y0 y0
| rk_further (y : vec) (stages : list (R * (R * vec))) :
    rk_outputs fun_ y0 y ->
    Forall (fun st => length (snd (snd st)) = length y0) stages ->
    rk_outputs fun_ y0 (rk_update fun_ y stages).

(** The weighted amount the stage states hold in class [k]. *)
Definition stage_amount (k : nat) (stages : list (R * (R * vec))) : R :=
  fold_right (fun st acc => fst st * get (snd (snd st)) k + acc) 0 stages.

(** ** The app notebook *)

(** The values the app stores in the configuration and the data. *)
Inductive PyValue : Type :=
| VInt (z : Z)
| VFloat (x : R)
| VStr (s : string)
| VRange (r : Z * Z)
| VList (l : list R).

(** A Python dict, its items in insertion order. *)
Definition PyDict : Type := list (string * PyValue).

(** [d[k] = v]: the value of an existing key is replaced, a new key is
    added at the end. *)
Fixpoint dict_set (d : PyDict) (k : string) (v : PyValue) : PyDict :=
  match d with
  | [] => [(k, v)]
  | (k', v') :: rest =>
      if String.eqb k k' then (k, v) :: rest else (k', v') :: dict_set rest k v
  end.

(** [d.get(k)] *)
Fixpoint dict_get (d : PyDict) (k : string) : option PyValue :=
  match d with
  | [] => None
  | (k', v') :: rest => if String.eqb k k' then Some v' else dict_get rest k
  end.

Module App.

Section Library.

(** The constructor [FragmentMNP(config, data)] of the fragmentmnp package
    and the dicts [minimal_config] and [minimal_data] of its examples: the
    package is not part of the repository. *)
Variables Err Mdl : Type.
Variable FragmentMNP : PyDict -> PyDict -> Err + Mdl.
Variables minimal_config minimal_data : PyDict.

(** [minimal_config] after the four stores of the app. *)
Definition config (K : Z) (K_range : Z * Z) (T : Z) : PyDict :=
  let c := dict_set minimal_config "n_size_classes" (VInt K) in
  let c := dict_set c "particle_size_range" (VRange K_range) in
  let c := dict_set c "n_timesteps" (VInt T) in
  dict_set c "k_diss_scaling_method" (VStr "surface_area").

(** [minimal_data] after the six stores of the app; [[_n_0] * K] is the
    empty list for [K <= 0]. *)
Definition data (K : Z) (_k_frag theta1 k_diss gamma1 _n_0 density : R)
  : PyDict :=
  let dt := dict_set minimal_data "initial_concs"
              (VList (repeat _n_0 (Z.to_nat K))) in
  let dt := dict_set dt "density" (VFloat density) in
  let dt := dict_set dt "k_frag" (VFloat _k_frag) in
  let dt := dict_set dt "theta_1" (VFloat theta1) in
  let dt := dict_set dt "k_diss" (VFloat k_diss) in
  dict_set dt "k_diss_gamma" (VFloat gamma1).

(** [fmnp = FragmentMNP(minimal_config, minimal_data)] in the app. *)
Definition fragmentmnp (K : Z) (K_range : Z * Z) (T : Z)
  (_k_frag theta1 k_diss gamma1 _n_0 density : R) : Err + Mdl :=
  FragmentMNP (config K K_range T)
    (data K _k_frag theta1 k_diss gamma1 _n_0 density).

End Library.

End App.

(** ** Arrays: stores, loops and sums *)

(** Case analysis on every comparison of naturals in the goal. *)
Ltac nat_cases :=
  repeat match goal with
  | |- context [(?a <=? ?b)%nat] => destruct (Nat.leb_spec a b)
  | |- context [(?a <? ?b)%nat] => destruct (Nat.ltb_spec a b)
  | |- context [(?a =? ?b)%nat] => destruct (Nat.eqb_spec a b)
  end; simpl; subst; try reflexivity; try lia.

Section Arrays.

Context {A : Type}.

Lemma set_item_length (l : list A) (i : nat) (x : A) :
  length (set_item l i x) = length l.
Proof.
  revert i; induction l as [|h t IH]; intros [|i]; simpl; auto.
Qed.

Lemma set_item_nth (l : list A) (i j : nat) (x dflt : A) :
  nth j (set_item l i x) dflt =
  if (j =? i)%nat && (j <? length l)%nat then x else nth j l dflt.
Proof.
  revert i j; induction l as [|h t IH]; intros i j.
  - simpl. rewrite andb_false_r. destruct i, j; reflexivity.
  - destruct i as [|i], j as [|j]; simpl; auto.
Qed.

(** A loop that stores [g k] at every index [k] of [seq a m]. *)
Lemma fill_loop_length (g : nat -> A) (l : list nat) (init : list A) :
  length (fold_left (fun acc k => set_item acc k (g k)) l init) = length init.
Proof.
  revert init; induction l as [|k l IH]; intros init; simpl; auto.
  rewrite IH. apply set_item_length.
Qed.

Lemma fill_loop_nth (g : nat -> A) (m a : nat) (init : list A) (i : nat)
  (dflt : A) :
  nth i (fold_left (fun acc k => set_item acc k (g k)) (seq a m) init) dflt =
  if (a <=? i)%nat && (i <? a + m)%nat && (i <? length init)%nat
  then g i else nth i init dflt.
Proof.
  revert a init; induction m as [|m IH]; intros a init; simpl.
  - nat_cases.
  - rewrite IH, set_item_length, set_item_nth. nat_cases.
Qed.

Lemma fill_loop (g : nat -> A) (N : nat) (init : list A) :
  length init = N ->
  fold_left (fun acc k => set_item acc k (g k)) (arange N) init =
  map g (seq 0 N).
Proof.
  intros HN. unfold arange.
  destruct N as [|N'].
  - destruct init; [reflexivity | discriminate].
  - destruct init as [|x0 init']; [discriminate|].
    apply nth_ext with (d := x0) (d' := g 0%nat).
    + rewrite fill_loop_length, length_map, length_seq. exact HN.
    + intros i Hi. rewrite fill_loop_length in Hi.
      rewrite fill_loop_nth.
      replace (0 <=? i)%nat with true by (symmetry; apply Nat.leb_le; lia).
      replace (i <? 0 + S N')%nat with true
        by (symmetry; apply Nat.ltb_lt; lia).
      replace (i <? length (x0 :: init'))%nat with true
        by (symmetry; apply Nat.ltb_lt; lia).
      simpl andb. cbv iota.
      rewrite (nth_indep _ (g 0%nat) (g i))
        by (rewrite length_map, length_seq; lia).
      rewrite (map_nth g (seq 0 (S N')) i i).
      rewrite seq_nth by lia. reflexivity.
Qed.

Lemma mapi_from_length {B : Type} (g : nat -> A -> B) (l : list A) (a : nat) :
  length (mapi_from a g l) = length l.
Proof.
  revert a; induction l as [|x t IH]; intros a; simpl; auto.
Qed.

Lemma mapi_from_nth {B : Type} (g : nat -> A -> B) (l : list A) (a i : nat)
  (dflt : A) (dflt' : B) :
  (i < length l)%nat ->
  nth i (mapi_from a g l) dflt' = g (a + i)%nat (nth i l dflt).
Proof.
  revert a i; induction l as [|x t IH]; intros a [|i] Hi; simpl in *;
    try lia.
  - rewrite Nat.add_0_r. reflexivity.
  - rewrite IH by lia. f_equal. lia.
Qed.

End Arrays.

Lemma for_each_ext {S : Type} (l : list nat) (body body' : nat -> S -> result S)
  (s : S) :
  (forall k s', In k l -> body k s' = body' k s') ->
  for_each l body s = for_each l body' s.
Proof.
  revert s; induction l as [|k l IH]; intros s H; simpl; auto.
  rewrite H by (left; reflexivity).
  destruct (body' k s) as [e|s']; simpl; auto.
  apply IH. intros; apply H; right; assumption.
Qed.

Lemma for_each_pure {S : Type} (l : list nat) (g : nat -> S -> S) (s : S) :
  for_each l (fun k s' => ret (g k s')) s =
  ret (fold_left (fun s' k => g k s') l s).
Proof.
  revert s; induction l as [|k l IH]; intros s; simpl; auto.
Qed.

(** ** Finite sums *)

Lemma big_sum_ext (N : nat) (g h : nat -> R) :
  (forall i, (i < N)%nat -> g i = h i) -> big_sum N g = big_sum N h.
Proof.
  induction N as [|N IH]; intros H; simpl; auto.
  rewrite IH, H by (intros; auto; lia). reflexivity.
Qed.

Lemma big_sum_shift (N : nat) (g : nat -> R) :
  big_sum (S N) g = g 0%nat + big_sum N (fun i => g (S i)).
Proof.
  induction N as [|N IH].
  - simpl; lra.
  - change (big_sum (S (S N)) g) with (big_sum (S N) g + g (S N)).
    rewrite IH. simpl. lra.
Qed.

Lemma big_sum_zero (N : nat) (g : nat -> R) :
  (forall i, (i < N)%nat -> g i = 0) -> big_sum N g = 0.
Proof.
  induction N as [|N IH]; intros H; simpl; auto.
  rewrite IH, H by (intros; auto; lia). lra.
Qed.

Lemma big_sum_plus (N : nat) (g h : nat -> R) :
  big_sum N (fun i => g i + h i) = big_sum N g + big_sum N h.
Proof.
  induction N as [|N IH]; simpl; [lra | rewrite IH; lra].
Qed.

Lemma big_sum_const (N : nat) (c : R) :
  big_sum N (fun _ => c) = INR N * c.
Proof.
  induction N as [|N IH]; [simpl; lra|].
  rewrite S_INR. simpl. rewrite IH. lra.
Qed.

Lemma big_sum_swap (N M : nat) (g : nat -> nat -> R) :
  big_sum N (fun i => big_sum M (fun j => g i j)) =
  big_sum M (fun j => big_sum N (fun i => g i j)).
Proof.
  induction N as [|N IH]; simpl.
  - symmetry. apply big_sum_zero. reflexivity.
  - rewrite IH, <- big_sum_plus. reflexivity.
Qed.

(** Splitting a sum of [N] terms at position [a]. *)
Lemma big_sum_split (N a : nat) (g : nat -> R) :
  (a <= N)%nat ->
  big_sum N g = big_sum a g + big_sum (N - a) (fun i => g (a + i)%nat).
Proof.
  induction N as [|N IH]; intros Ha.
  - replace a with 0%nat by lia. simpl. lra.
  - destruct (Nat.eq_dec a (S N)) as [->|Hne].
    + rewrite Nat.sub_diag. simpl. lra.
    + replace (S N - a)%nat with (S (N - a)) by lia.
      simpl. rewrite IH by lia.
      replace (a + (N - a))%nat with N by lia. lra.
Qed.

Lemma sum_big_sum (v : vec) (N : nat) :
  (length v <= N)%nat -> sum v = big_sum N (get v).
Proof.
  revert N; induction v as [|x v IH]; intros N HN.
  - simpl. symmetry. apply big_sum_zero. intros i _.
    unfold get. destruct i; reflexivity.
  - destruct N as [|N]; [simpl in HN; lia|].
    rewrite big_sum_shift. simpl. rewrite (IH N) by (simpl in HN; lia).
    reflexivity.
Qed.

Lemma get_mul (a b : vec) (i : nat) : get (mul a b) i = get a i * get b i.
Proof.
  unfold get. revert b i; induction a as [|x a IH]; intros b i.
  - simpl. destruct i; lra.
  - destruct b as [|y b].
    + simpl. destruct i; lra.
    + destruct i; simpl; auto.
Qed.

Lemma mul_length (a b : vec) : length (mul a b) = Nat.min (length a) (length b).
Proof.
  revert b; induction a as [|x a IH]; intros [|y b]; simpl; auto.
Qed.

Lemma get_col (M : matrix) (k i : nat) : get (col M k) i = get2 M i k.
Proof.
  unfold get2, row, col, get. revert i; induction M as [|r M IH]; intros i.
  - simpl. destruct i; destruct k; reflexivity.
  - destruct i; simpl; auto.
Qed.

(** ** The right-hand side, entry by entry *)

Lemma f_length (kf : vec) (M : matrix) (t : R) (n : vec) :
  length (f kf M t n) = length n.
Proof.
  unfold f. rewrite fill_loop_length. unfold empty, full.
  apply repeat_length.
Qed.

Lemma nth_map_seq {B : Type} (g : nat -> B) (N k : nat) (dflt : B) :
  (k < N)%nat -> nth k (map g (seq 0 N)) dflt = g k.
Proof.
  intros Hk.
  rewrite (nth_indep _ dflt (g 0%nat)) by (rewrite length_map, length_seq; lia).
  rewrite (map_nth g (seq 0 N) 0%nat k), seq_nth by lia. reflexivity.
Qed.

Lemma get_map_seq (g : nat -> R) (N k : nat) :
  (k < N)%nat -> get (map g (seq 0 N)) k = g k.
Proof. apply nth_map_seq. Qed.

Lemma f_get (kf : vec) (M : matrix) (t : R) (n : vec) (k : nat) :
  (k < length n)%nat ->
  get (f kf M t n) k =
  - get kf k * get n k
  + big_sum (length n) (fun i => get2 M i k * get kf i * get n i).
Proof.
  intros Hk. unfold f.
  rewrite fill_loop by (unfold empty, full; apply repeat_length).
  rewrite get_map_seq by exact Hk.
  f_equal.
  rewrite (sum_big_sum _ (length n)) by (rewrite mul_length; lia).
  apply big_sum_ext. intros i _.
  rewrite !get_mul, get_col. reflexivity.
Qed.

(** The contents of [np.empty] do not matter: the loop stores every entry. *)
Lemma f_any_empty (kf : vec) (M : matrix) (n junk : vec) :
  length junk = length n ->
  fold_left
    (fun dndt k =>
       set_item dndt k
         (- get kf k * get n k + sum (mul (mul (col M k) kf) n)))
    (arange (length n)) junk =
  f kf M 0 n.
Proof.
  intros Hj. unfold f.
  rewrite !fill_loop; auto.
  unfold empty, full. apply repeat_length.
Qed.

(** ** The fragment size distribution matrix *)

Lemma fsd_value_ok (K k : nat) :
  (k < K)%nat -> fsd_value K k = ret (row_value K k).
Proof.
  intros Hk. unfold fsd_value, row_value.
  destruct (Z.eqb_spec (Z.of_nat K - Z.of_nat k) 1) as [E|E]; simpl.
  - replace (K - k =? 1)%nat with true
      by (symmetry; apply Nat.eqb_eq; lia).
    reflexivity.
  - replace (K - k =? 1)%nat with false
      by (symmetry; apply Nat.eqb_neq; lia).
    destruct (Z.eqb_spec (Z.of_nat K - Z.of_nat k - 1) 0) as [E0|E0];
      [lia|].
    rewrite INR_IZR_INZ. do 3 f_equal. lia.
Qed.

Lemma fsd_loop (K : nat) :
  for_each (arange K)
    (fun k M => v <- fsd_value K k ;; ret (set_item M k (full K v)))
    (zeros2 K K) =
  ret (map (fun k => full K (row_value K k)) (seq 0 K)).
Proof.
  rewrite (for_each_ext _ _
             (fun k M => ret (set_item M k (full K (row_value K k))))).
  - rewrite for_each_pure. f_equal.
    apply (fill_loop (fun k => full K (row_value K k))).
    unfold zeros2. apply repeat_length.
  - intros k M Hin. unfold arange in Hin. apply in_seq in Hin.
    rewrite fsd_value_ok by lia. reflexivity.
Qed.

Lemma full_nth (N : nat) (x : R) (j : nat) :
  (j < N)%nat -> nth j (full N x) 0 = x.
Proof.
  intros Hj. unfold full. apply nth_repeat_lt. exact Hj.
Qed.

Lemma triu_rows (K : nat) (v : nat -> R) :
  triu (map (fun k => full K (v k)) (seq 0 K)) 1 =
  map (fun i => map (fun j => if (i <? j)%nat then v i else 0) (seq 0 K))
    (seq 0 K).
Proof.
  unfold triu.
  apply nth_ext with (d := []) (d' := []).
  - rewrite mapi_from_length, !length_map. reflexivity.
  - intros i Hi.
    rewrite mapi_from_length, length_map, length_seq in Hi.
    rewrite (mapi_from_nth _ _ _ _ [])
      by (rewrite length_map, length_seq; exact Hi).
    rewrite !nth_map_seq by exact Hi. simpl Nat.add.
    apply nth_ext with (d := 0) (d' := 0).
    + rewrite mapi_from_length, length_map, length_seq.
      unfold full. apply repeat_length.
    + intros j Hj. rewrite mapi_from_length in Hj.
      unfold full in Hj. rewrite repeat_length in Hj.
      rewrite (mapi_from_nth _ _ _ _ 0)
        by (unfold full; rewrite repeat_length; exact Hj).
      rewrite full_nth, nth_map_seq by exact Hj. simpl Nat.add.
      destruct (Z.leb_spec 1 (Z.of_nat j - Z.of_nat i));
        destruct (Nat.ltb_spec i j); try lia; reflexivity.
Qed.

(** The code builds exactly the even-split matrix, and no division in the
    construction has a zero divisor. *)
Lemma fsd_even_split (K : nat) : fsd K = ret (even_split K).
Proof.
  unfold fsd. rewrite fsd_loop. simpl bind. f_equal.
  rewrite triu_rows. unfold even_split.
  apply map_ext_in. intros i Hi. apply in_seq in Hi.
  apply map_ext_in. intros j Hj. apply in_seq in Hj.
  unfold even_split_entry, row_value.
  destruct (Nat.ltb_spec i j); [|reflexivity].
  replace (K - i =? 1)%nat with false
    by (symmetry; apply Nat.eqb_neq; lia).
  reflexivity.
Qed.

Lemma even_split_length (K : nat) : length (even_split K) = K.
Proof. unfold even_split. rewrite length_map, length_seq. reflexivity. Qed.

Lemma even_split_row (K i : nat) :
  (i < K)%nat ->
  row (even_split K) i = map (fun j => even_split_entry K i j) (seq 0 K).
Proof.
  intros Hi. unfold row, even_split.
  rewrite nth_map_seq by exact Hi. reflexivity.
Qed.

Lemma even_split_get2 (K i j : nat) :
  (i < K)%nat -> (j < K)%nat ->
  get2 (even_split K) i j = even_split_entry K i j.
Proof.
  intros Hi Hj. unfold get2. rewrite even_split_row by exact Hi.
  apply get_map_seq. exact Hj.
Qed.

(** Row sums: 1 for every class but the finest. *)
Lemma even_split_row_sum (K i : nat) :
  (i < K)%nat ->
  big_sum K (fun j => even_split_entry K i j) =
  if (i + 1 <? K)%nat then 1 else 0.
Proof.
  intros Hi.
  rewrite (big_sum_split K (S i)) by lia.
  rewrite (big_sum_zero (S i)).
  2:{ intros j Hj. unfold even_split_entry.
      destruct (Nat.ltb_spec i j); [lia | reflexivity]. }
  rewrite (big_sum_ext _ _ (fun _ => 1 / INR (K - i - 1))).
  2:{ intros j Hj. unfold even_split_entry.
      destruct (Nat.ltb_spec i (S i + j)); [reflexivity | lia]. }
  rewrite big_sum_const.
  destruct (Nat.ltb_spec (i + 1) K) as [Hlt|Hge].
  - replace (K - S i)%nat with (K - i - 1)%nat by lia.
    assert (0 < INR (K - i - 1)) by (apply lt_0_INR; lia).
    field. lra.
  - replace (K - S i)%nat with 0%nat by lia. simpl. lra.
Qed.

(** ** The size classes *)

Lemma linspace_length (a b : R) (num : nat) : length (linspace a b num) = num.
Proof.
  destruct num as [|[|n]]; simpl; auto.
  rewrite length_app, length_map, length_seq. simpl. lia.
Qed.

(** For two samples or more, sample [i] is [a + i * (b - a) / (num - 1)]:
    storing [stop] in the last place agrees with the formula. *)
Lemma linspace_get (a b : R) (num i : nat) :
  (2 <= num)%nat -> (i < num)%nat ->
  get (linspace a b num) i = INR i * ((b - a) / INR (num - 1)) + a.
Proof.
  intros Hnum Hi. destruct num as [|[|n]]; try lia.
  replace (S (S n) - 1)%nat with (S n) by lia.
  unfold linspace, get, arange.
  assert (Hpos : 0 < INR (S n)) by (apply lt_0_INR; lia).
  destruct (Nat.eq_dec i (S n)) as [->|Hne].
  - rewrite app_nth2 by (rewrite length_map, length_seq; lia).
    rewrite length_map, length_seq, Nat.sub_diag. simpl nth.
    field. lra.
  - rewrite app_nth1 by (rewrite length_map, length_seq; lia).
    rewrite nth_map_seq by lia. reflexivity.
Qed.

Lemma d_value (K : Z) (K_range : Z * Z) :
  (0 <= K)%Z ->
  d K K_range =
  ret (map (power 10)
         (linspace (IZR (snd K_range)) (IZR (fst K_range)) (Z.to_nat K))).
Proof.
  intros HK. unfold d, logspace.
  destruct (Z.ltb_spec K 0); [lia | reflexivity].
Qed.

Lemma get_map_power (l : vec) (i : nat) :
  (i < length l)%nat -> get (map (power 10) l) i = power 10 (get l i).
Proof.
  intros Hi. unfold get.
  rewrite (nth_indep _ 0 (power 10 0)) by (rewrite length_map; exact Hi).
  apply map_nth.
Qed.

Lemma power_pos (x y : R) : 0 < power x y.
Proof. unfold power, Rpower. apply exp_pos. Qed.

Lemma power_0_r (x : R) : power x 0 = 1.
Proof. unfold power, Rpower. rewrite Rmult_0_l. apply exp_0. Qed.

(** Every diameter is positive, so [**] is only taken of a positive base. *)
Lemma d_positive (K : Z) (K_range : Z * Z) (ds : vec) :
  d K K_range = ret ds -> Forall (fun x => 0 < x) ds.
Proof.
  unfold d, logspace. destruct (K <? 0)%Z; [discriminate|].
  intros H; injection H as <-.
  apply Forall_forall. intros x Hx. apply in_map_iff in Hx.
  destruct Hx as [e [<- _]]. apply power_pos.
Qed.

Lemma insert_perm (x : R) (l : vec) : Permutation (insert x l) (x :: l).
Proof.
  induction l as [|y t IH]; simpl; auto.
  destruct (Rle_dec x y); auto.
  rewrite IH. apply perm_swap.
Qed.

Lemma sort_perm (l : vec) : Permutation (sort l) l.
Proof.
  induction l as [|x t IH]; simpl; auto.
  rewrite insert_perm. auto.
Qed.

Lemma median_positive (a : vec) :
  a <> [] -> Forall (fun x => 0 < x) a -> 0 < median a.
Proof.
  intros Hne Hpos.
  assert (Hs : Forall (fun x => 0 < x) (sort a)).
  { eapply Permutation_Forall; [|exact Hpos].
    apply Permutation_sym, sort_perm. }
  assert (Hlen : length (sort a) = length a)
    by (apply Permutation_length, sort_perm).
  assert (Hn : (0 < length a)%nat)
    by (destruct a; [congruence | simpl; lia]).
  assert (Hget : forall i, (i < length a)%nat -> 0 < get (sort a) i).
  { intros i Hi. rewrite Forall_forall in Hs. apply Hs.
    unfold get. apply nth_In. lia. }
  assert (Hhalf : (length a / 2 < length a)%nat)
    by (apply Nat.div_lt; lia).
  unfold median. destruct (Nat.even (length a)).
  - assert (0 < get (sort a) (length a / 2 - 1)) by (apply Hget; lia).
    assert (0 < get (sort a) (length a / 2)) by (apply Hget; lia).
    lra.
  - apply Hget. exact Hhalf.
Qed.

Lemma d_median_positive (K : Z) (K_range : Z * Z) (ds : vec) :
  (1 <= K)%Z -> d K K_range = ret ds -> 0 < d_median ds.
Proof.
  intros HK Hd. apply median_positive.
  - rewrite d_value in Hd by lia. injection Hd as <-.
    intros E. apply (f_equal (@length R)) in E.
    rewrite length_map, linspace_length in E. simpl in E. lia.
  - eapply d_positive; eauto.
Qed.

(** ** The rate law *)

Lemma k_frag_length (kbar th : R) (ds : vec) :
  length (k_frag kbar th ds) = length ds.
Proof. unfold k_frag. apply length_map. Qed.

Lemma k_frag_get (kbar th : R) (ds : vec) (k : nat) :
  (k < length ds)%nat ->
  get (k_frag kbar th ds) k = k_prop kbar th ds * power (get ds k) (2 * th).
Proof.
  intros Hk. unfold k_frag, get.
  rewrite (nth_indep _ 0
             ((fun dk => k_prop kbar th ds * power dk (2 * th)) 0))
    by (rewrite length_map; exact Hk).
  apply (map_nth (fun dk => k_prop kbar th ds * power dk (2 * th))).
Qed.

Lemma setitem_last (v : vec) (K : Z) (x : R) :
  (1 <= K)%Z -> length v = Z.to_nat K ->
  setitem v (K - 1) x = ret (set_item v (Z.to_nat K - 1) x).
Proof.
  intros HK Hlen. unfold setitem. rewrite Hlen, Z2Nat.id by lia.
  destruct (Z.leb_spec 0 (K - 1)); [|lia].
  destruct (Z.ltb_spec (K - 1) K); [|lia]. simpl.
  do 2 f_equal. lia.
Qed.

Lemma get_set_item (v : vec) (i j : nat) (x : R) :
  get (set_item v i x) j =
  if (j =? i)%nat && (j <? length v)%nat then x else get v j.
Proof. unfold get. apply set_item_nth. Qed.

(** ** The constructed model *)

Lemma diameters_length (K : Z) (K_range : Z * Z) :
  length (diameters K K_range) = Z.to_nat K.
Proof. unfold diameters. rewrite length_map. apply linspace_length. Qed.

Lemma fragmentmnp_value (K : Z) (K_range : Z * Z) (kbar th n0 : R)
  (loss : bool) :
  (1 <= K)%Z ->
  fragmentmnp K K_range kbar th n0 loss =
  ret (mkModel (diameters K K_range) (final_k_frag K K_range kbar th loss)
         (full (Z.to_nat K) n0) (even_split (Z.to_nat K))).
Proof.
  intros HK. unfold fragmentmnp.
  rewrite d_value by lia. simpl bind. fold (diameters K K_range).
  unfold no_loss, final_k_frag. rewrite fsd_even_split.
  destruct loss; simpl negb; cbv iota.
  - reflexivity.
  - rewrite setitem_last
      by (try lia; rewrite k_frag_length; apply diameters_length).
    reflexivity.
Qed.

Lemma fragmentmnp_negative (K : Z) (K_range : Z * Z) (kbar th n0 : R)
  (loss : bool) :
  (K < 0)%Z -> fragmentmnp K K_range kbar th n0 loss = raise ValueError.
Proof.
  intros HK. unfold fragmentmnp, d, logspace.
  destruct (Z.ltb_spec K 0); [reflexivity | lia].
Qed.

Lemma fragmentmnp_zero (K_range : Z * Z) (kbar th n0 : R) (loss : bool) :
  fragmentmnp 0 K_range kbar th n0 loss =
  if loss then ret (mkModel [] [] [] []) else raise IndexError.
Proof. destruct loss; reflexivity. Qed.

(** ** The balance of the right-hand side *)

Lemma big_sum_scal_r (N : nat) (c : R) (g : nat -> R) :
  big_sum N (fun i => g i * c) = big_sum N g * c.
Proof.
  induction N as [|N IH]; simpl; [lra | rewrite IH; lra].
Qed.

(** What class [i] sends to the finer classes, summed over the receivers. *)
Lemma inflow_total (K : nat) (kf n : vec) (i : nat) :
  (i < K)%nat ->
  big_sum K (fun k => get2 (even_split K) i k * get kf i * get n i) =
  (if (i + 1 <? K)%nat then 1 else 0) * (get kf i * get n i).
Proof.
  intros Hi.
  rewrite (big_sum_ext _ _
             (fun k => even_split_entry K i k * (get kf i * get n i))).
  - rewrite big_sum_scal_r, even_split_row_sum by exact Hi. reflexivity.
  - intros k Hk. rewrite even_split_get2 by assumption. ring.
Qed.

Lemma rhs_total (K : nat) (kf n : vec) (t : R) :
  (1 <= K)%nat -> length n = K ->
  sum (f kf (even_split K) t n) = - get kf (K - 1) * get n (K - 1).
Proof.
  intros HK Hn.
  rewrite (sum_big_sum _ K) by (rewrite f_length; lia).
  rewrite (big_sum_ext _ _
             (fun k => - (get kf k * get n k)
                       + big_sum K (fun i => get2 (even_split K) i k
                                             * get kf i * get n i))).
  2:{ intros k Hk. rewrite f_get by lia. rewrite Hn. ring. }
  rewrite big_sum_plus, big_sum_swap.
  rewrite (big_sum_ext K
             (fun j => big_sum K (fun i => get2 (even_split K) j i
                                           * get kf j * get n j))
             (fun j => (if (j + 1 <? K)%nat then 1 else 0)
                       * (get kf j * get n j)))
    by (intros j Hj; apply inflow_total; exact Hj).
  rewrite <- big_sum_plus.
  destruct K as [|K']; [lia|].
  replace (S K' - 1)%nat with K' by lia.
  simpl big_sum. rewrite big_sum_zero.
  - destruct (Nat.ltb_spec (K' + 1) (S K')); [lia | ring].
  - intros i Hi. destruct (Nat.ltb_spec (i + 1) (S K')); [ring | lia].
Qed.

(** The formula of the right-hand side with the even-split matrix written
    out: class [k] loses [k_frag[k]*n[k]] and receives an equal share of what
    every coarser class loses. *)
Lemma rhs_even_split (K : nat) (kf n : vec) (t : R) (k : nat) :
  length n = K -> (k < K)%nat ->
  get (f kf (even_split K) t n) k =
  - get kf k * get n k
  + big_sum k (fun i => get kf i * get n i / INR (K - i - 1)).
Proof.
  intros Hn Hk. rewrite f_get by lia. f_equal. rewrite Hn.
  rewrite (big_sum_split K k) by lia.
  rewrite (big_sum_zero (K - k)).
  - rewrite Rplus_0_r. apply big_sum_ext. intros i Hi.
    rewrite even_split_get2 by lia. unfold even_split_entry.
    destruct (Nat.ltb_spec i k); [|lia].
    assert (0 < INR (K - i - 1)) by (apply lt_0_INR; lia).
    field. lra.
  - intros i Hi. rewrite even_split_get2 by lia. unfold even_split_entry.
    destruct (Nat.ltb_spec (k + i) k); [lia | ring].
Qed.

(** ** Trajectories *)

Lemma big_sum_derivable (N : nat) (g : nat -> R -> R) (g' : nat -> R) (t : R) :
  (forall k, (k < N)%nat -> derivable_pt_lim (g k) t (g' k)) ->
  derivable_pt_lim (fun s => big_sum N (fun k => g k s)) t (big_sum N g').
Proof.
  induction N as [|N IH]; intros H; simpl.
  - apply (derivable_pt_lim_const 0).
  - apply (derivable_pt_lim_plus (fun s => big_sum N (fun k => g k s)) (g N)).
    + apply IH. intros k Hk. apply H. lia.
    + apply H. lia.
Qed.

(** A function whose derivative vanishes on [[a, b]] is constant there. *)
Lemma null_derivative_constant (g : R -> R) (a b : R) :
  (forall t, a <= t <= b -> derivable_pt_lim g t 0) ->
  forall t, a <= t <= b -> g t = g a.
Proof.
  intros H t Ht.
  pose (pr := fun (x : R) (Hx : a < x < b) =>
                exist (fun l => derivable_pt_abs g x l) 0
                  (H x (conj (Rlt_le _ _ (proj1 Hx)) (Rlt_le _ _ (proj2 Hx))))
                : derivable_pt g x).
  apply (null_derivative_loc g a b pr).
  - intros x Hx. apply derivable_continuous_pt. exists 0. apply H. exact Hx.
  - intros x P. reflexivity.
  - exact Ht.
Qed.

(** The total concentration of a trajectory changes at the rate given by
    the sum of the right-hand side. *)
Lemma total_derivative (rhs : R -> vec -> vec) (t0 T : R) (y0 : vec)
  (y : R -> vec) (t : R) :
  (forall s n, length (rhs s n) = length n) ->
  solve_ivp rhs (t0, T) y0 y -> t0 <= t <= T ->
  derivable_pt_lim (fun s => sum (y s)) t (sum (rhs t (y t))).
Proof.
  intros Hlen [_ [Hy Hd]] Ht. simpl in Hd.
  apply derivable_pt_lim_ext
    with (f := fun s => big_sum (length y0) (fun k => get (y s) k)).
  - intros z. symmetry. apply sum_big_sum. rewrite Hy. lia.
  - rewrite (sum_big_sum _ (length y0)) by (rewrite Hlen, Hy; lia).
    apply (big_sum_derivable (length y0) (fun k s => get (y s) k)).
    intros k Hk. apply Hd; assumption.
Qed.

(** With no fragmentation out of the finest class the total is conserved. *)
Lemma total_conserved (K : nat) (kf n0 : vec) (T : R) (y : R -> vec) :
  (1 <= K)%nat -> length n0 = K -> get kf (K - 1) = 0 ->
  solve_ivp (f kf (even_split K)) (0, T) n0 y ->
  forall t, 0 <= t <= T -> sum (y t) = sum n0.
Proof.
  intros HK Hn Hkf Hsol t Ht.
  pose proof Hsol as [Hy0 [Hlen _]]. simpl in Hy0.
  rewrite <- Hy0.
  apply (null_derivative_constant (fun s => sum (y s)) 0 T); [|exact Ht].
  intros s Hs.
  replace 0 with (sum (f kf (even_split K) s (y s))).
  - apply (total_derivative _ 0 T n0); auto.
    intros; apply f_length.
  - rewrite rhs_total by (try lia; rewrite Hlen; exact Hn).
    rewrite Hkf. ring.
Qed.

(** *** A single class *)

Lemma rhs_single (a x t : R) : f [a] [[0]] t [x] = [- a * x + (0 * a * x + 0)].
Proof. reflexivity. Qed.

Lemma exp_scal_derivable (a t : R) :
  derivable_pt_lim (fun s => exp (a * s)) t (a * exp (a * t)).
Proof.
  apply derivable_pt_lim_ext with (f := comp exp (mult_real_fct a id)).
  - intros z. reflexivity.
  - replace (a * exp (a * t)) with (exp (mult_real_fct a id t) * (a * 1))
      by (unfold mult_real_fct, id; ring).
    apply derivable_pt_lim_comp.
    + apply derivable_pt_lim_scal, derivable_pt_lim_id.
    + apply derivable_pt_lim_exp.
Qed.

Lemma singleton_of_length_1 (v : vec) : length v = 1%nat -> v = [get v 0].
Proof.
  destruct v as [|x [|x' v']]; simpl; intros H; try discriminate.
  reflexivity.
Qed.

(** Exponential decay is a trajectory of the single-class system ... *)
Lemma decay_solves (a c T : R) :
  solve_ivp (f [a] [[0]]) (0, T) [c] (fun t => [c * exp (- a * t)]).
Proof.
  split; [|split]; simpl.
  - rewrite Rmult_0_r, exp_0. f_equal. ring.
  - reflexivity.
  - intros t k _ Hk. assert (k = 0%nat) as -> by lia.
    rewrite rhs_single. unfold get. simpl nth.
    replace (- a * (c * exp (- a * t)) + (0 * a * (c * exp (- a * t)) + 0))
      with (c * (- a * exp (- a * t))) by ring.
    apply (derivable_pt_lim_scal (fun s => exp (- a * s)) c).
    apply exp_scal_derivable.
Qed.

(** ... and the only one. *)
Lemma decay_unique (a c T : R) (y : R -> vec) :
  solve_ivp (f [a] [[0]]) (0, T) [c] y ->
  forall t, 0 <= t <= T -> y t = [c * exp (- a * t)].
Proof.
  intros [Hy0 [Hlen Hd]] t Ht. simpl in Hy0, Hlen, Hd.
  assert (Hy : forall s, y s = [get (y s) 0])
    by (intros s; apply singleton_of_length_1, Hlen).
  assert (Hg : forall s, 0 <= s <= T ->
             derivable_pt_lim (fun s => get (y s) 0) s (- a * get (y s) 0)).
  { intros s Hs. specialize (Hd s 0%nat Hs (Nat.lt_0_1)).
    rewrite (Hy s), rhs_single in Hd.
    replace (- a * get (y s) 0)
      with (get [- a * get (y s) 0 + (0 * a * get (y s) 0 + 0)] 0)
      by (unfold get at 1; simpl nth; ring).
    exact Hd. }
  assert (Hh : forall s, 0 <= s <= T ->
             derivable_pt_lim (fun s => get (y s) 0 * exp (a * s)) s 0).
  { intros s Hs.
    replace 0 with (- a * get (y s) 0 * exp (a * s)
                    + get (y s) 0 * (a * exp (a * s))) by ring.
    apply (derivable_pt_lim_mult (fun s => get (y s) 0)
             (fun s => exp (a * s))).
    - apply Hg. exact Hs.
    - apply exp_scal_derivable. }
  pose proof (null_derivative_constant _ 0 T Hh t Ht) as Hc.
  simpl in Hc. rewrite Hy0 in Hc. unfold get at 2 in Hc. simpl nth in Hc.
  rewrite Rmult_0_r, exp_0, Rmult_1_r in Hc.
  rewrite (Hy t). f_equal.
  replace (- a * t) with (- (a * t)) by ring.
  rewrite exp_Ropp, <- Hc. field.
  apply Rgt_not_eq, exp_pos.
Qed.

(** ** The claims *)

Lemma spec_dcdt_rhs (kf kdiss : vec) (M : matrix) (t : R) (c : vec) (k : nat) :
  (k < length c)%nat ->
  spec_dcdt kf kdiss M c k = get (f kf M t c) k - get kdiss k * get c k.
Proof.
  intros Hk. unfold spec_dcdt. rewrite f_get by exact Hk. reflexivity.
Qed.

(** C1, as stated, fails: the right-hand side of the notebook has no
    dissolution term.  For one class with the default inputs and a
    dissolution rate of 0.0005 the returned derivative differs from the
    equation of the specification. *)
Lemma C1_dissolution_term_absent :
  exists m,
    fragmentmnp 1 (-9, -3)%Z (1 / 100) 0 42 true = inr m /\
    get (f (m_k_frag m) (m_fsd m) 0 (m_n_0 m)) 0 <>
    spec_dcdt (m_k_frag m) [5 / 10000] (m_fsd m) (m_n_0 m) 0.
Proof.
  eexists. split.
  - apply fragmentmnp_value. lia.
  - cbn [m_k_frag m_fsd m_n_0].
    rewrite (spec_dcdt_rhs _ _ _ 0) by (simpl; lia).
    replace (get [5 / 10000] 0) with (5 / 10000) by reflexivity.
    replace (get (full (Z.to_nat 1) 42) 0) with 42 by reflexivity.
    lra.
Qed.

(** C1 (amended): for every size class [k] the right-hand side returns
    [-k_frag[k]*n[k] + Σ_i fsd[i][k]*k_frag[i]*n[i]], the equation of the
    specification with every dissolution rate zero; the equation with rates
    [k_diss] differs from it by the sink term [k_diss[k]*n[k]]. *)
Theorem C1_rhs_without_dissolution (kf : vec) (M : matrix) (t : R) (n : vec)
  (k : nat) :
  length kf = length n -> length M = length n -> (k < length n)%nat ->
  get (f kf M t n) k =
    - get kf k * get n k
    + big_sum (length n) (fun i => get2 M i k * get kf i * get n i) /\
  get (f kf M t n) k = spec_dcdt kf (full (length n) 0) M n k /\
  forall k_diss,
    spec_dcdt kf k_diss M n k = get (f kf M t n) k - get k_diss k * get n k.
Proof.
  intros _ _ Hk. split; [|split].
  - apply f_get. exact Hk.
  - rewrite (spec_dcdt_rhs _ _ _ t) by exact Hk.
    unfold get at 3. rewrite full_nth by exact Hk. ring.
  - intros k_diss. apply spec_dcdt_rhs. exact Hk.
Qed.

Lemma C1_rhs_without_dissolution_witness :
  get (f [1; 1] [[0; 1]; [0; 0]] 0 [42; 42]) 1 = 0 /\
  spec_dcdt [1; 1] [5 / 10000; 5 / 10000] [[0; 1]; [0; 0]] [42; 42] 1
  = 0 - 5 / 10000 * 42.
Proof.
  destruct (C1_rhs_without_dissolution [1; 1] [[0; 1]; [0; 0]] 0 [42; 42] 1)
    as [H1 [_ H3]]; [reflexivity | reflexivity | simpl; lia |].
  split.
  - rewrite H1. unfold get2, row, get. simpl. ring.
  - rewrite (H3 [5 / 10000; 5 / 10000]), H1.
    unfold get2, row, get. simpl. ring.
Defined.

(** C2: for every [K >= 1] the construction of [fsd] divides by no zero and
    returns a K x K matrix whose row [i] holds [1/(K - i - 1)] in every
    column strictly finer than [i] (index 0 is the coarsest class) and 0
    elsewhere, diagonal and coarser columns included; every row [i < K-1]
    sums to 1 and the finest row is zero. *)
Theorem C2_fsd_even_split (K : nat) :
  (1 <= K)%nat ->
  exists M,
    fsd K = inr M /\
    length M = K /\
    (forall i, (i < K)%nat -> length (row M i) = K) /\
    (forall i j, (i < K)%nat -> (j < K)%nat ->
       get2 M i j = if (i <? j)%nat then 1 / INR (K - i - 1) else 0) /\
    (forall i, (i < K - 1)%nat -> sum (row M i) = 1) /\
    (forall j, (j < K)%nat -> get2 M (K - 1) j = 0).
Proof.
  intros HK. exists (even_split K).
  split; [apply fsd_even_split|].
  split; [apply even_split_length|].
  split; [|split; [|split]].
  - intros i Hi. rewrite even_split_row by exact Hi.
    rewrite length_map, length_seq. reflexivity.
  - intros i j Hi Hj. apply even_split_get2; assumption.
  - intros i Hi.
    rewrite (sum_big_sum _ K)
      by (rewrite even_split_row by lia;
          rewrite length_map, length_seq; lia).
    rewrite (big_sum_ext _ _ (fun j => even_split_entry K i j)).
    + rewrite even_split_row_sum by lia.
      destruct (Nat.ltb_spec (i + 1) K); [reflexivity | lia].
    + intros j Hj. apply (even_split_get2 K i j); lia.
  - intros j Hj. rewrite even_split_get2 by lia.
    unfold even_split_entry.
    destruct (Nat.ltb_spec (K - 1) j); [lia | reflexivity].
Qed.

Lemma C2_fsd_even_split_witness :
  (1 <= 3)%nat /\
  exists M,
    fsd 3 = inr M /\
    length M = 3%nat /\
    (forall i, (i < 3)%nat -> length (row M i) = 3%nat) /\
    (forall i j, (i < 3)%nat -> (j < 3)%nat ->
       get2 M i j = if (i <? j)%nat then 1 / INR (3 - i - 1) else 0) /\
    (forall i, (i < 3 - 1)%nat -> sum (row M i) = 1) /\
    (forall j, (j < 3)%nat -> get2 M (3 - 1) j = 0).
Proof.
  split; [lia | apply (C2_fsd_even_split 3); lia].
Defined.

(** C10: for every time [t] and every state [n] of length [K] the sum of
    the right-hand side over all classes is [-k_frag[K-1] * n[K-1]]: what a
    class that is not the finest loses, the finer classes receive; the sum
    is zero exactly when [k_frag[K-1] * n[K-1] = 0]. *)
Theorem C10_rhs_total (K : nat) (kf n : vec) (t : R) (M : matrix) :
  (1 <= K)%nat -> length kf = K -> length n = K -> fsd K = inr M ->
  sum (f kf M t n) = - get kf (K - 1) * get n (K - 1) /\
  (sum (f kf M t n) = 0 <-> get kf (K - 1) * get n (K - 1) = 0).
Proof.
  intros HK _ Hn HM. rewrite fsd_even_split in HM. injection HM as <-.
  rewrite rhs_total by assumption.
  split; [reflexivity|]. split; intros H; lra.
Qed.

Lemma C10_rhs_total_witness :
  sum (f [3; 2; 1] (even_split 3) 0 [42; 42; 42]) = - 1 * 42 /\
  (sum (f [3; 2; 1] (even_split 3) 0 [42; 42; 42]) = 0 <-> 1 * 42 = 0).
Proof.
  apply (C10_rhs_total 3 [3; 2; 1] [42; 42; 42] 0 (even_split 3));
    [lia | reflexivity | reflexivity | apply fsd_even_split].
Defined.

(** *** Size classes *)

Lemma diameters_single (K_range : Z * Z) :
  diameters 1 K_range = [power 10 (IZR (snd K_range))].
Proof. reflexivity. Qed.

Lemma diameters_get (K : Z) (K_range : Z * Z) (i : nat) :
  (2 <= K)%Z -> (i < Z.to_nat K)%nat ->
  get (diameters K K_range) i =
  power 10 (INR i * ((IZR (fst K_range) - IZR (snd K_range)) / (IZR K - 1))
            + IZR (snd K_range)).
Proof.
  intros HK Hi. unfold diameters.
  rewrite get_map_power by (rewrite linspace_length; exact Hi).
  rewrite linspace_get by lia.
  do 4 f_equal.
  rewrite minus_INR by lia. rewrite INR_IZR_INZ, Z2Nat.id by lia.
  simpl. reflexivity.
Qed.

Lemma diameters_head (K : Z) (K_range : Z * Z) :
  (1 <= K)%Z -> get (diameters K K_range) 0 = power 10 (IZR (snd K_range)).
Proof.
  intros HK. destruct (Z.eq_dec K 1) as [->|Hne].
  - reflexivity.
  - rewrite diameters_get by lia. f_equal. simpl. lra.
Qed.

Lemma diameters_last (K : Z) (K_range : Z * Z) :
  (2 <= K)%Z ->
  get (diameters K K_range) (Z.to_nat K - 1) = power 10 (IZR (fst K_range)).
Proof.
  intros HK. rewrite diameters_get by lia. f_equal.
  rewrite minus_INR by lia. rewrite INR_IZR_INZ, Z2Nat.id by lia. simpl.
  assert (1 < IZR K) by (apply IZR_lt; lia).
  field. lra.
Qed.

Lemma power_10_lt (x y : R) : x < y -> power 10 x < power 10 y.
Proof. intros H. apply Rpower_lt; [lra | exact H]. Qed.

Lemma power_10_le (x y : R) : x <= y -> power 10 x <= power 10 y.
Proof. intros H. apply Rle_Rpower; [lra | exact H]. Qed.

(** C8, as stated, fails for a single class: the only diameter is the upper
    end of the range, and the lower end is not among the diameters. *)
Lemma C8_single_class_misses_lower_end :
  exists ds,
    d 1 (-9, -3)%Z = inr ds /\
    ds = [power 10 (-3)] /\
    ~ In (power 10 (-9)) ds.
Proof.
  exists [power 10 (-3)]. split; [reflexivity|]. split; [reflexivity|].
  intros [H|[]].
  assert (power 10 (-9) < power 10 (-3)) by (apply power_10_lt; lra).
  lra.
Qed.

(** C8 (amended): for every [K >= 1] and every range with min exponent
    below max exponent the diameters are exactly [K] values, starting at
    [10^max], strictly decreasing, in geometric progression; for [K >= 2]
    they end at [10^min], so that both ends of the range are diameters; for
    [K = 1] the only diameter is [10^max]. *)
Theorem C8_size_classes (K : Z) (K_range : Z * Z) :
  (1 <= K)%Z -> (fst K_range < snd K_range)%Z ->
  exists ds,
    d K K_range = inr ds /\
    length ds = Z.to_nat K /\
    get ds 0 = power 10 (IZR (snd K_range)) /\
    (forall i, (i + 1 < Z.to_nat K)%nat -> get ds (i + 1) < get ds i) /\
    (forall i, (i + 1 < Z.to_nat K)%nat ->
       get ds (i + 1) =
       get ds i
       * power 10 ((IZR (fst K_range) - IZR (snd K_range)) / (IZR K - 1))) /\
    ((2 <= K)%Z -> get ds (Z.to_nat K - 1) = power 10 (IZR (fst K_range))) /\
    (K = 1%Z -> ds = [power 10 (IZR (snd K_range))]).
Proof.
  intros HK Hrange. exists (diameters K K_range).
  assert (Hlt : IZR (fst K_range) < IZR (snd K_range))
    by (apply IZR_lt; exact Hrange).
  split; [apply d_value; lia|].
  split; [apply diameters_length|].
  split; [apply diameters_head; exact HK|].
  split; [|split; [|split]].
  - intros i Hi. assert (HK2 : (2 <= K)%Z) by lia.
    assert (1 < IZR K) by (apply IZR_lt; lia).
    rewrite !diameters_get by lia.
    apply power_10_lt. rewrite plus_INR. simpl INR.
    assert ((IZR (fst K_range) - IZR (snd K_range)) / (IZR K - 1) < 0).
    { apply Rmult_neg_pos; [lra|]. apply Rinv_0_lt_compat. lra. }
    lra.
  - intros i Hi. assert (HK2 : (2 <= K)%Z) by lia.
    rewrite !diameters_get by lia.
    unfold power. rewrite <- Rpower_plus. f_equal.
    rewrite plus_INR. simpl INR. ring.
  - intros HK2. apply diameters_last. exact HK2.
  - intros ->. apply diameters_single.
Qed.

Lemma C8_size_classes_witness :
  exists ds,
    d 3 (-9, -3)%Z = inr ds /\
    length ds = 3%nat /\
    get ds 0 = power 10 (-3) /\
    (forall i, (i + 1 < 3)%nat -> get ds (i + 1) < get ds i) /\
    (forall i, (i + 1 < 3)%nat ->
       get ds (i + 1) = get ds i * power 10 ((-9 - -3) / (3 - 1))) /\
    ((2 <= 3)%Z -> get ds (3 - 1) = power 10 (-9)) /\
    (3%Z = 1%Z -> ds = [power 10 (-3)]).
Proof.
  apply (C8_size_classes 3 (-9, -3)%Z); simpl; lia.
Defined.

(** *** Fragmentation rates *)

Lemma k_frag_at_median (kbar th : R) (ds : vec) (k : nat) :
  (k < length ds)%nat -> get ds k = d_median ds ->
  get (k_frag kbar th ds) k = kbar.
Proof.
  intros Hk Hm. rewrite k_frag_get by exact Hk.
  unfold k_prop. rewrite Hm.
  pose proof (power_pos (d_median ds) (2 * th)).
  field. lra.
Qed.

Lemma k_frag_theta_0 (kbar : R) (ds : vec) (k : nat) :
  (k < length ds)%nat -> get (k_frag kbar 0 ds) k = kbar.
Proof.
  intros Hk. rewrite k_frag_get by exact Hk.
  unfold k_prop. rewrite Rmult_0_r, !power_0_r. field.
Qed.


(** The median of a single diameter is that diameter. *)
Lemma median_single (x : R) : median [x] = x.
Proof. reflexivity. Qed.

(** The median of three decreasing diameters is the middle one. *)
Lemma median_three (a b c : R) : c < b -> b < a -> median [a; b; c] = b.
Proof.
  intros Hcb Hba. unfold median, sort. simpl fold_right.
  unfold insert at 2. destruct (Rle_dec b c); [lra|].
  unfold insert. destruct (Rle_dec a c); [lra|].
  destruct (Rle_dec a b); [lra|]. reflexivity.
Qed.

(** C5: for every class [k] the fragmentation rate set from the power law
    is [k_prop * d[k]^(2*theta1)] with
    [k_prop = k_frag_bar / d_median^(2*theta1)] and [d_median] the median of
    the diameters; a class whose diameter is [d_median] has rate
    [k_frag_bar], and with [theta1 = 0] every class has rate [k_frag_bar].
    The constructed model keeps this rate for every class when
    fragmentation from the smallest class is allowed, and for every class
    but the smallest when it is not. *)
Theorem C5_k_frag_power_law (K : Z) (K_range : Z * Z) (kbar th : R)
  (ds : vec) (k : nat) :
  d K K_range = inr ds -> (k < length ds)%nat ->
  get (k_frag kbar th ds) k = k_prop kbar th ds * power (get ds k) (2 * th) /\
  k_prop kbar th ds = kbar / power (d_median ds) (2 * th) /\
  d_median ds = median ds /\
  (get ds k = d_median ds -> get (k_frag kbar th ds) k = kbar) /\
  (th = 0 -> get (k_frag kbar th ds) k = kbar) /\
  (forall n0 loss m,
     fragmentmnp K K_range kbar th n0 loss = inr m ->
     loss = true \/ (k < length ds - 1)%nat ->
     get (m_k_frag m) k = get (k_frag kbar th ds) k).
Proof.
  intros Hd Hk.
  split; [apply k_frag_get; exact Hk|].
  split; [reflexivity|]. split; [reflexivity|].
  split; [|split].
  - intros Hm. apply k_frag_at_median; assumption.
  - intros ->. apply k_frag_theta_0. exact Hk.
  - intros n0 loss m Hm Hcase.
    assert (HK : (0 <= K)%Z).
    { unfold d, logspace in Hd.
      destruct (Z.ltb_spec K 0); [discriminate | assumption]. }
    rewrite d_value in Hd by exact HK. injection Hd as <-.
    fold (diameters K K_range) in *.
    rewrite diameters_length in *.
    rewrite fragmentmnp_value in Hm by lia. injection Hm as <-.
    cbn [m_k_frag]. unfold final_k_frag.
    destruct loss; [reflexivity|].
    destruct Hcase as [H|H]; [discriminate|].
    rewrite get_set_item, k_frag_length, diameters_length. nat_cases.
Qed.

(** For three classes over the default range the middle class has the
    median diameter, and its rate is the average rate whatever [theta1]. *)
Lemma C5_k_frag_power_law_witness :
  get (diameters 3 (-9, -3)%Z) 1 = d_median (diameters 3 (-9, -3)%Z) /\
  get (k_frag (1 / 100) (1 / 4) (diameters 3 (-9, -3)%Z)) 1 = 1 / 100.
Proof.
  assert (Hm : get (diameters 3 (-9, -3)%Z) 1
               = d_median (diameters 3 (-9, -3)%Z)).
  { unfold d_median, diameters, linspace, arange. simpl map. simpl app.
    rewrite median_three; [reflexivity | |];
      apply power_10_lt; simpl; lra. }
  split; [exact Hm|].
  destruct (C5_k_frag_power_law 3 (-9, -3)%Z (1 / 100) (1 / 4)
              (diameters 3 (-9, -3)%Z) 1) as [_ [_ [_ [H _]]]].
  - reflexivity.
  - simpl. lia.
  - apply H. exact Hm.
Defined.

(** The smallest class is the last one. *)
Lemma diameters_last_smallest (K : Z) (K_range : Z * Z) (k : nat) :
  (1 <= K)%Z -> (fst K_range <= snd K_range)%Z -> (k < Z.to_nat K)%nat ->
  get (diameters K K_range) (Z.to_nat K - 1) <= get (diameters K K_range) k.
Proof.
  intros HK Hrange Hk.
  destruct (Z.eq_dec K 1) as [->|Hne].
  - replace k with 0%nat by lia. simpl. lra.
  - assert (Hle : IZR (fst K_range) <= IZR (snd K_range))
      by (apply IZR_le; exact Hrange).
    assert (H1 : 1 < IZR K) by (apply IZR_lt; lia).
    rewrite diameters_last by lia. rewrite diameters_get by lia.
    apply power_10_le.
    assert (Hik : INR k <= IZR K - 1).
    { replace (IZR K - 1) with (INR (Z.to_nat K - 1)).
      - apply le_INR. lia.
      - rewrite minus_INR by lia. rewrite INR_IZR_INZ, Z2Nat.id by lia.
        simpl. reflexivity. }
    assert (Hpos : 0 <= INR k) by apply pos_INR.
    replace (INR k * ((IZR (fst K_range) - IZR (snd K_range)) / (IZR K - 1))
             + IZR (snd K_range))
      with (IZR (snd K_range)
            - (IZR (snd K_range) - IZR (fst K_range))
              * (INR k / (IZR K - 1)))
      by (field; lra).
    assert (Hfrac : INR k / (IZR K - 1) <= 1).
    { apply Rmult_le_reg_r with (IZR K - 1); [lra|].
      unfold Rdiv. rewrite Rmult_assoc, Rinv_l by lra. lra. }
    assert (Hfrac0 : 0 <= INR k / (IZR K - 1)).
    { apply Rmult_le_pos; [exact Hpos|].
      apply Rlt_le, Rinv_0_lt_compat. lra. }
    nra.
Qed.

(** C6: when fragmentation from the smallest class is not allowed, that
    class (the last one, whose diameter is the least) gets [k_frag] zero
    whatever the power law gives, and every other class keeps its rate. *)
Theorem C6_smallest_class_sink (K : Z) (K_range : Z * Z) (kbar th n0 : R) :
  (1 <= K)%Z ->
  exists m,
    fragmentmnp K K_range kbar th n0 false = inr m /\
    length (m_k_frag m) = Z.to_nat K /\
    get (m_k_frag m) (Z.to_nat K - 1) = 0 /\
    (forall k, (k < Z.to_nat K - 1)%nat ->
       get (m_k_frag m) k = get (k_frag kbar th (m_d m)) k) /\
    ((fst K_range <= snd K_range)%Z ->
     forall k, (k < Z.to_nat K)%nat ->
       get (m_d m) (Z.to_nat K - 1) <= get (m_d m) k).
Proof.
  intros HK. eexists. split; [apply fragmentmnp_value; exact HK|].
  cbn [m_k_frag m_d]. unfold final_k_frag.
  assert (Hlen : length (k_frag kbar th (diameters K K_range)) = Z.to_nat K)
    by (rewrite k_frag_length; apply diameters_length).
  split; [rewrite set_item_length; exact Hlen|].
  split; [|split].
  - rewrite get_set_item, Hlen. nat_cases.
  - intros k Hk. rewrite get_set_item, Hlen. nat_cases.
  - intros Hrange k Hk. apply diameters_last_smallest; assumption.
Qed.

Lemma C6_smallest_class_sink_witness :
  exists m,
    fragmentmnp 3 (-9, -3)%Z (1 / 100) (1 / 4) 42 false = inr m /\
    length (m_k_frag m) = 3%nat /\
    get (m_k_frag m) 2 = 0 /\
    (forall k, (k < 2)%nat ->
       get (m_k_frag m) k = get (k_frag (1 / 100) (1 / 4) (m_d m)) k) /\
    ((-9 <= -3)%Z ->
     forall k, (k < 3)%nat -> get (m_d m) 2 <= get (m_d m) k).
Proof.
  apply (C6_smallest_class_sink 3 (-9, -3)%Z (1 / 100) (1 / 4) 42). lia.
Defined.

(** *** Construction and its errors *)

(** C7, as stated, fails: a range whose exponents are equal is accepted,
    and the model is built with two equal diameters. *)
Lemma C7_equal_exponents_accepted :
  (-5 >= -5)%Z /\
  exists m,
    fragmentmnp 2 (-5, -5)%Z (1 / 100) 0 42 true = inr m /\
    m_d m = [power 10 (-5); power 10 (-5)].
Proof.
  split; [lia|]. eexists. split; [apply fragmentmnp_value; lia|].
  cbn [m_d]. unfold diameters, linspace, arange. simpl.
  do 2 f_equal. lra.
Qed.

Lemma dict_get_set_same (d : PyDict) (k : string) (v : PyValue) :
  dict_get (dict_set d k v) k = Some v.
Proof.
  induction d as [|[k' v'] rest IH]; simpl.
  - rewrite String.eqb_refl. reflexivity.
  - destruct (String.eqb k k') eqn:E; simpl.
    + rewrite String.eqb_refl. reflexivity.
    + rewrite E. exact IH.
Qed.

Lemma dict_get_set_other (d : PyDict) (k k' : string) (v : PyValue) :
  String.eqb k' k = false ->
  dict_get (dict_set d k v) k' = dict_get d k'.
Proof.
  intros Hne. induction d as [|[k0 v0] rest IH]; simpl.
  - rewrite Hne. reflexivity.
  - destruct (String.eqb k k0) eqn:E; simpl.
    + apply String.eqb_eq in E. subst k0. rewrite Hne. reflexivity.
    + rewrite IH. reflexivity.
Qed.

(** The app stores [K] and [K_range] as they come and reads nothing back. *)
Lemma app_config_inputs (minimal_config : PyDict) (K : Z) (K_range : Z * Z)
  (T : Z) :
  dict_get (App.config minimal_config K K_range T) "n_size_classes"
  = Some (VInt K) /\
  dict_get (App.config minimal_config K K_range T) "particle_size_range"
  = Some (VRange K_range).
Proof.
  unfold App.config. split.
  - rewrite !dict_get_set_other by reflexivity. apply dict_get_set_same.
  - rewrite !dict_get_set_other by reflexivity. apply dict_get_set_same.
Qed.

(** C7 (amended): neither notebook validates its configuration or raises a
    ConfigurationError.  The construction of the sensitivity-analysis
    notebook fails, before any integration, with ValueError (from
    [logspace]) exactly when [K < 0] and with IndexError (from the store
    [k_frag[K-1]]) exactly when [K = 0] and fragmentation from the smallest
    class is not allowed, and with no other error; for [K = 0] with that
    fragmentation allowed it returns an empty model, and for every [K >= 1]
    a model with [K] diameters starting at [10^K_range[1]], whatever the
    range; when the two exponents are equal all diameters are equal.  The
    app notebook stores [K] and [K_range] as they come in the configuration
    and hands it to the constructor of the fragmentmnp package, so that its
    construction fails exactly as that constructor does. *)
Theorem C7_construction_errors (K : Z) (K_range : Z * Z) (kbar th n0 : R)
  (loss : bool) :
  (fragmentmnp K K_range kbar th n0 loss = inl ValueError <-> (K < 0)%Z) /\
  (fragmentmnp K K_range kbar th n0 loss = inl IndexError <->
   K = 0%Z /\ loss = false) /\
  fragmentmnp K K_range kbar th n0 loss <> inl DivideByZero /\
  (K = 0%Z -> loss = true ->
   fragmentmnp K K_range kbar th n0 loss = inr (mkModel [] [] [] [])) /\
  ((1 <= K)%Z ->
   exists m,
     fragmentmnp K K_range kbar th n0 loss = inr m /\
     length (m_d m) = Z.to_nat K /\
     get (m_d m) 0 = power 10 (IZR (snd K_range)) /\
     (fst K_range = snd K_range ->
      forall k, (k < Z.to_nat K)%nat ->
        get (m_d m) k = power 10 (IZR (fst K_range)))) /\
  (forall (Err Mdl : Type) (FragmentMNP : PyDict -> PyDict -> Err + Mdl)
     (minimal_config minimal_data : PyDict) (T : Z)
     (k_diss gamma1 density : R),
     App.fragmentmnp Err Mdl FragmentMNP minimal_config minimal_data
       K K_range T kbar th k_diss gamma1 n0 density
     = FragmentMNP (App.config minimal_config K K_range T)
         (App.data minimal_data K kbar th k_diss gamma1 n0 density) /\
     dict_get (App.config minimal_config K K_range T) "n_size_classes"
     = Some (VInt K) /\
     dict_get (App.config minimal_config K K_range T) "particle_size_range"
     = Some (VRange K_range)).
Proof.
  assert (Happ : forall (Err Mdl : Type)
            (FragmentMNP : PyDict -> PyDict -> Err + Mdl)
            (minimal_config minimal_data : PyDict) (T : Z)
            (k_diss gamma1 density : R),
            App.fragmentmnp Err Mdl FragmentMNP minimal_config minimal_data
              K K_range T kbar th k_diss gamma1 n0 density
            = FragmentMNP (App.config minimal_config K K_range T)
                (App.data minimal_data K kbar th k_diss gamma1 n0 density) /\
            dict_get (App.config minimal_config K K_range T) "n_size_classes"
            = Some (VInt K) /\
            dict_get (App.config minimal_config K K_range T)
              "particle_size_range"
            = Some (VRange K_range)).
  { intros. split; [reflexivity | apply app_config_inputs]. }
  destruct (Z.lt_trichotomy K 0) as [Hneg|[->|Hpos]].
  - rewrite fragmentmnp_negative by exact Hneg.
    split; [split; [intros _; exact Hneg | intros _; reflexivity]|].
    split; [split; [intros H; discriminate | intros [H _]; lia]|].
    split; [intros H; discriminate|].
    split; [intros H; lia|].
    split; [intros H; lia | exact Happ].
  - rewrite fragmentmnp_zero.
    split; [split; [destruct loss; intros H; discriminate | intros H; lia]|].
    split.
    { destruct loss.
      - split; [intros H; discriminate | intros [_ H]; discriminate].
      - split; [intros _; split; reflexivity | intros _; reflexivity]. }
    split; [destruct loss; intros H; discriminate|].
    split; [intros _ ->; reflexivity|].
    split; [intros H; lia | exact Happ].
  - rewrite fragmentmnp_value by lia.
    split; [split; [intros H; discriminate | intros H; lia]|].
    split; [split; [intros H; discriminate | intros [H _]; lia]|].
    split; [intros H; discriminate|].
    split; [intros H; lia|].
    split; [|exact Happ].
    intros _. eexists. split; [reflexivity|]. cbn [m_d].
    split; [apply diameters_length|].
    split; [apply diameters_head; lia|].
    intros Heq k Hk.
    destruct (Z.eq_dec K 1) as [->|Hne].
    + replace k with 0%nat by lia. rewrite Heq. reflexivity.
    + rewrite diameters_get by lia. f_equal.
      assert (1 < IZR K) by (apply IZR_lt; lia).
      rewrite Heq. field. lra.
Qed.

(** *** The spread of the rates *)

Lemma k_prop_nonzero (kbar th : R) (ds : vec) :
  kbar <> 0 -> k_prop kbar th ds <> 0.
Proof.
  intros Hk. unfold k_prop, Rdiv.
  pose proof (power_pos (d_median ds) (2 * th)) as Hp.
  apply Rmult_integral_contrapositive_currified; [exact Hk|].
  apply Rinv_neq_0_compat. lra.
Qed.

(** The ratio of the coarsest rate to the finest one depends on [theta1]
    and on the width of the range only. *)
Lemma spread_value (K : Z) (K_range : Z * Z) (kbar th : R) :
  (2 <= K)%Z -> kbar <> 0 ->
  spread (k_frag kbar th (diameters K K_range)) =
  power 10 (2 * th * (IZR (snd K_range) - IZR (fst K_range))).
Proof.
  intros HK Hk. unfold spread.
  rewrite k_frag_length, diameters_length.
  rewrite !k_frag_get by (rewrite diameters_length; lia).
  rewrite diameters_head, diameters_last by lia.
  pose proof (k_prop_nonzero kbar th (diameters K K_range) Hk) as Hp.
  unfold power in *. rewrite !Rpower_mult.
  replace (2 * th * (IZR (snd K_range) - IZR (fst K_range)))
    with (IZR (snd K_range) * (2 * th) + - (IZR (fst K_range) * (2 * th)))
    by ring.
  rewrite Rpower_plus, Rpower_Ropp.
  pose proof (exp_pos (IZR (fst K_range) * (2 * th) * ln 10)) as Hpos.
  unfold Rpower in *. field. split; lra.
Qed.

(** C9, as stated, fails for an average rate of zero, which the input
    allows: every rate is then zero for every [theta1], and the two spreads
    are the same. *)
Lemma C9_zero_rate_no_spread :
  exists ds,
    d 2 (-9, -3)%Z = inr ds /\
    k_frag 0 (1 / 2) ds = k_frag 0 0 ds /\
    ~ spread (k_frag 0 0 ds) < spread (k_frag 0 (1 / 2) ds).
Proof.
  exists (diameters 2 (-9, -3)%Z). split; [reflexivity|].
  assert (E : k_frag 0 (1 / 2) (diameters 2 (-9, -3)%Z)
              = k_frag 0 0 (diameters 2 (-9, -3)%Z)).
  { unfold k_frag. apply map_ext. intros x. unfold k_prop, Rdiv. ring. }
  split; [exact E|]. rewrite E. apply Rlt_irrefl.
Qed.

(** C9 (amended): with a non-zero average rate, at least two classes and
    min exponent below max exponent, the ratio of the coarsest class's rate
    to the finest class's rate is strictly increasing in [theta1]. *)
Theorem C9_spread_increasing (K : Z) (K_range : Z * Z) (kbar th th' : R)
  (ds : vec) :
  (2 <= K)%Z -> (fst K_range < snd K_range)%Z -> kbar <> 0 ->
  0 <= th < th' -> d K K_range = inr ds ->
  spread (k_frag kbar th ds) < spread (k_frag kbar th' ds).
Proof.
  intros HK Hrange Hk Hth Hd.
  rewrite d_value in Hd by lia. injection Hd as <-.
  fold (diameters K K_range).
  rewrite !spread_value by assumption.
  apply power_10_lt.
  assert (IZR (fst K_range) < IZR (snd K_range))
    by (apply IZR_lt; exact Hrange).
  nra.
Qed.

Lemma C9_spread_increasing_witness :
  spread (k_frag (1 / 100) 0 (diameters 3 (-9, -3)%Z))
  < spread (k_frag (1 / 100) (1 / 2) (diameters 3 (-9, -3)%Z)).
Proof.
  apply (C9_spread_increasing 3 (-9, -3)%Z (1 / 100) 0 (1 / 2));
    [lia | simpl; lia | lra | lra | reflexivity].
Defined.

(** *** Conservation of the total *)

Lemma single_class_model (K_range : Z * Z) (kbar th n0 : R) (loss : bool) :
  fragmentmnp 1 K_range kbar th n0 loss =
  ret (mkModel [power 10 (IZR (snd K_range))] [if loss then kbar else 0]
         [n0] [[0]]).
Proof.
  rewrite fragmentmnp_value by lia.
  unfold final_k_frag. rewrite diameters_single.
  unfold k_frag, k_prop, d_median. rewrite median_single.
  simpl map. unfold ret. f_equal.
  pose proof (power_pos (power 10 (IZR (snd K_range))) (2 * th)) as Hp.
  destruct loss.
  - f_equal. f_equal. field. lra.
  - reflexivity.
Qed.

Lemma decay_decreases (a c : R) (y : R -> vec) (T : R) :
  0 < a -> 0 < c -> 1 <= T ->
  solve_ivp (f [a] [[0]]) (0, T) [c] y ->
  sum (y 1) < sum (y 0).
Proof.
  intros Ha Hc HT Hsol.
  rewrite (decay_unique a c T y Hsol 1) by lra.
  rewrite (decay_unique a c T y Hsol 0) by lra.
  simpl. rewrite Rmult_0_r, exp_0.
  assert (exp (- a * 1) < 1).
  { apply Rlt_le_trans with (exp 0); [apply exp_increasing; lra|].
    rewrite exp_0. lra. }
  nra.
Qed.




(** Two classes, the finest a sink: what the coarse class loses the fine
    class gains. *)
Lemma two_class_solves (a c T : R) :
  solve_ivp (f [a; 0] (even_split 2)) (0, T) [c; c]
    (fun t => [c * exp (- a * t); 2 * c - c * exp (- a * t)]).
Proof.
  split; [|split]; simpl fst; simpl snd.
  - rewrite Rmult_0_r, exp_0. f_equal; [ring | f_equal; ring].
  - reflexivity.
  - intros t k _ Hk. simpl in Hk.
    rewrite rhs_even_split by (simpl; lia).
    destruct k as [|[|k]]; [| |lia].
    + unfold get. simpl nth. simpl big_sum.
      replace (- a * (c * exp (- a * t)) + 0)
        with (c * (- a * exp (- a * t))) by ring.
      apply (derivable_pt_lim_scal (fun s => exp (- a * s)) c).
      apply exp_scal_derivable.
    + unfold get. simpl nth. simpl big_sum.
      replace (- 0 * (2 * c - c * exp (- a * t))
               + (0 + a * (c * exp (- a * t)) / 1))
        with (0 - c * (- a * exp (- a * t))) by field.
      apply (derivable_pt_lim_minus (fun _ => 2 * c)
               (fun s => c * exp (- a * s))).
      * apply (derivable_pt_lim_const (2 * c)).
      * apply (derivable_pt_lim_scal (fun s => exp (- a * s)) c).
        apply exp_scal_derivable.
Qed.



(** *** A single class *)

(** C4, as stated, fails: with one class, fragmentation from the smallest
    class allowed and a positive rate, the concentration decreases although
    the matrix is the 1 x 1 zero matrix. *)
Lemma C4_single_class_decays :
  exists m,
    fragmentmnp 1 (-9, -3)%Z (1 / 2) (1 / 4) 10 true = inr m /\
    m_fsd m = [[0]] /\
    (exists y, solve_ivp (f (m_k_frag m) (m_fsd m)) (0, 100) (m_n_0 m) y) /\
    (forall y,
       solve_ivp (f (m_k_frag m) (m_fsd m)) (0, 100) (m_n_0 m) y ->
       get (y 1) 0 < get (y 0) 0).
Proof.
  eexists. split; [apply single_class_model|].
  cbn [m_k_frag m_fsd m_n_0]. split; [reflexivity|]. split.
  - eexists. apply decay_solves.
  - intros y Hsol.
    pose proof (decay_decreases (1 / 2) 10 y 100) as H.
    rewrite (decay_unique _ _ _ _ Hsol 1) in * by lra.
    rewrite (decay_unique _ _ _ _ Hsol 0) in * by lra.
    unfold get. simpl in *. 
    assert (10 * exp (- (1 / 2) * 1) + 0 < 10 * exp (- (1 / 2) * 0) + 0)
      by (apply H; auto; lra).
    lra.
Qed.

(** C4 (amended): for one class the matrix is the 1 x 1 zero matrix and the
    right-hand side of the class is [-k_frag[0] * n[0]], where [k_frag[0]]
    is the average rate when fragmentation from the smallest class is
    allowed and zero when it is not; with that fragmentation not allowed,
    or with an average rate of zero, the right-hand side is zero and the
    concentration of the class stays constant for all [t]. *)
Theorem C4_single_class (K_range : Z * Z) (kbar th n0 : R) (loss : bool)
  (m : Model) :
  fragmentmnp 1 K_range kbar th n0 loss = inr m ->
  m_fsd m = [[0]] /\
  m_k_frag m = [if loss then kbar else 0] /\
  m_n_0 m = [n0] /\
  (forall t c,
     f (m_k_frag m) (m_fsd m) t [c] = [- (if loss then kbar else 0) * c]) /\
  (loss = false \/ kbar = 0 ->
   (forall t c, f (m_k_frag m) (m_fsd m) t [c] = [0]) /\
   forall T y,
     solve_ivp (f (m_k_frag m) (m_fsd m)) (0, T) (m_n_0 m) y ->
     forall t, 0 <= t <= T -> y t = [n0]).
Proof.
  intros Hm. rewrite single_class_model in Hm. injection Hm as <-.
  cbn [m_k_frag m_fsd m_n_0].
  split; [reflexivity|]. split; [reflexivity|]. split; [reflexivity|].
  split.
  - intros t c. rewrite rhs_single. f_equal. ring.
  - intros Hcase.
    assert (E : (if loss then kbar else 0) = 0).
    { destruct loss; [|reflexivity].
      destruct Hcase as [H|H]; [discriminate | exact H]. }
    rewrite E. split.
    + intros t c. rewrite rhs_single. f_equal. ring.
    + intros T y Hsol t Ht.
      pose proof (total_conserved 1 [0] [n0] T y (le_n 1) eq_refl eq_refl
                    Hsol t Ht) as Hc.
      assert (Hy : y t = [get (y t) 0])
        by (apply singleton_of_length_1; destruct Hsol as [_ [Hlen _]];
            apply Hlen).
      rewrite Hy in Hc. simpl in Hc.
      rewrite Hy. f_equal. lra.
Qed.

Lemma C4_single_class_witness :
  [[0]] = [[0]] /\
  [0] = [0] /\
  [42] = [42] /\
  (forall t c, f [0] [[0]] t [c] = [- 0 * c]) /\
  (false = false \/ 1 / 100 = 0 ->
   (forall t c, f [0] [[0]] t [c] = [0]) /\
   forall T y,
     solve_ivp (f [0] [[0]]) (0, T) [42] y ->
     forall t, 0 <= t <= T -> y t = [42]).
Proof.
  apply (C4_single_class (-9, -3)%Z (1 / 100) 0 42 false
           (mkModel [power 10 (-3)] [0] [42] [[0]])).
  apply single_class_model.
Defined.

(** ** Further properties of the notebook's code *)

(** *** The right-hand side as a linear, triangular system *)

Lemma big_sum_nonneg (N : nat) (g : nat -> R) :
  (forall i, (i < N)%nat -> 0 <= g i) -> 0 <= big_sum N g.
Proof.
  induction N as [|N IH]; intros H; simpl; [lra|].
  assert (0 <= big_sum N g) by (apply IH; intros; apply H; lia).
  assert (0 <= g N) by (apply H; lia). lra.
Qed.

Lemma fsd_inversion (K : nat) (M : matrix) :
  fsd K = inr M -> M = even_split K.
Proof.
  intros H. rewrite fsd_even_split in H. injection H as <-. reflexivity.
Qed.

(** X1: the right-hand side is linear in the state: on a combination
    [a*n1 + b*n2] of two states it returns the same combination of what it
    returns on [n1] and on [n2]. *)
Theorem X1_rhs_linear (kf : vec) (M : matrix) (t a b : R) (n1 n2 n : vec)
  (k : nat) :
  length n1 = length n -> length n2 = length n ->
  (forall i, (i < length n)%nat -> get n i = a * get n1 i + b * get n2 i) ->
  (k < length n)%nat ->
  get (f kf M t n) k = a * get (f kf M t n1) k + b * get (f kf M t n2) k.
Proof.
  intros H1 H2 Hn Hk.
  rewrite !f_get by lia. rewrite H1, H2, (Hn k Hk).
  rewrite (big_sum_ext _ _
             (fun i => a * (get2 M i k * get kf i * get n1 i)
                       + b * (get2 M i k * get kf i * get n2 i)))
    by (intros i Hi; rewrite (Hn i Hi); ring).
  rewrite big_sum_plus.
  rewrite (big_sum_ext (length n)
             (fun i => a * (get2 M i k * get kf i * get n1 i))
             (fun i => (get2 M i k * get kf i * get n1 i) * a))
    by (intros; ring).
  rewrite (big_sum_ext (length n)
             (fun i => b * (get2 M i k * get kf i * get n2 i))
             (fun i => (get2 M i k * get kf i * get n2 i) * b))
    by (intros; ring).
  rewrite !big_sum_scal_r. ring.
Qed.

Lemma X1_rhs_linear_witness :
  get (f [3; 2; 1] (even_split 3) 0 [5; 7; 9]) 1
  = 2 * get (f [3; 2; 1] (even_split 3) 0 [1; 2; 3]) 1
    + 3 * get (f [3; 2; 1] (even_split 3) 0 [1; 1; 1]) 1.
Proof.
  apply (X1_rhs_linear [3; 2; 1] (even_split 3) 0 2 3
           [1; 2; 3] [1; 1; 1] [5; 7; 9] 1);
    [reflexivity | reflexivity | | simpl; lia].
  intros i Hi. simpl in Hi.
  destruct i as [|[|[|i]]]; [| | |lia]; unfold get; simpl; ring.
Defined.

(** X2: fragments never reach a coarser class: the derivative of class [k]
    depends on the concentrations of the classes [0..k] only, whatever the
    finer classes hold. *)
Theorem X2_rhs_triangular (K : nat) (kf n n' : vec) (t : R) (M : matrix)
  (k : nat) :
  fsd K = inr M -> length n = K -> length n' = K -> (k < K)%nat ->
  (forall i, (i <= k)%nat -> get n i = get n' i) ->
  get (f kf M t n) k = get (f kf M t n') k.
Proof.
  intros HM Hn Hn' Hk Hagree. apply fsd_inversion in HM. subst M.
  rewrite !rhs_even_split by assumption.
  rewrite (Hagree k) by lia. f_equal.
  apply big_sum_ext. intros i Hi. rewrite (Hagree i) by lia. reflexivity.
Qed.

Lemma X2_rhs_triangular_witness :
  get (f [3; 2; 1] (even_split 3) 0 [42; 42; 42]) 1
  = get (f [3; 2; 1] (even_split 3) 0 [42; 42; 0]) 1.
Proof.
  apply (X2_rhs_triangular 3 [3; 2; 1] [42; 42; 42] [42; 42; 0] 0
           (even_split 3) 1);
    [apply fsd_even_split | reflexivity | reflexivity | lia |].
  intros i Hi. destruct i as [|[|i]]; [reflexivity | reflexivity | lia].
Defined.

(** X3: with non-negative rates and a non-negative state, a class that is
    empty has a non-negative derivative: the right-hand side never pushes a
    concentration below zero. *)
Theorem X3_rhs_empty_class_gains (K : nat) (kf n : vec) (t : R) (M : matrix)
  (k : nat) :
  fsd K = inr M -> length n = K -> (k < K)%nat ->
  (forall i, (i < K)%nat -> 0 <= get kf i) ->
  (forall i, (i < K)%nat -> 0 <= get n i) ->
  get n k = 0 ->
  0 <= get (f kf M t n) k.
Proof.
  intros HM Hn Hk Hkf Hpos Hzero. apply fsd_inversion in HM. subst M.
  rewrite rhs_even_split by assumption. rewrite Hzero.
  assert (0 <= big_sum k (fun i => get kf i * get n i / INR (K - i - 1))).
  { apply big_sum_nonneg. intros i Hi.
    assert (0 < INR (K - i - 1)) by (apply lt_0_INR; lia).
    apply Rmult_le_pos.
    - apply Rmult_le_pos; [apply Hkf | apply Hpos]; lia.
    - left. apply Rinv_0_lt_compat. assumption. }
  lra.
Qed.

Lemma X3_rhs_empty_class_gains_witness :
  0 <= get (f [3; 2; 1] (even_split 3) 0 [42; 0; 42]) 1.
Proof.
  apply (X3_rhs_empty_class_gains 3 [3; 2; 1] [42; 0; 42] 0 (even_split 3) 1);
    [apply fsd_even_split | reflexivity | lia | | | reflexivity];
    intros i Hi; destruct i as [|[|[|i]]]; try lia; unfold get; simpl; lra.
Defined.

(** *** Trajectories of the system *)

(** Along a trajectory class [k] obeys its own line of the system. *)
Lemma component_ode (K : nat) (kf n0 : vec) (T : R) (y : R -> vec) (k : nat)
  (t : R) :
  length n0 = K -> (k < K)%nat ->
  solve_ivp (f kf (even_split K)) (0, T) n0 y -> 0 <= t <= T ->
  derivable_pt_lim (fun s => get (y s) k) t
    (- get kf k * get (y t) k
     + big_sum k (fun i => get kf i * get (y t) i / INR (K - i - 1))).
Proof.
  intros Hn Hk [_ [Hlen Hd]] Ht. simpl in Hd.
  rewrite <- (rhs_even_split K kf (y t) t k);
    [| rewrite Hlen; exact Hn | exact Hk].
  apply Hd; [exact Ht | lia].
Qed.

Lemma integrating_factor (g : R -> R) (a S t : R) :
  derivable_pt_lim g t (- a * g t + S) ->
  derivable_pt_lim (fun s => g s * exp (a * s)) t (S * exp (a * t)).
Proof.
  intros H.
  replace (S * exp (a * t))
    with ((- a * g t + S) * exp (a * t) + g t * (a * exp (a * t))) by ring.
  apply (derivable_pt_lim_mult g (fun s => exp (a * s)));
    [exact H | apply exp_scal_derivable].
Qed.

Lemma trajectory_unique_component (K : nat) (kf n0 : vec) (T : R)
  (y z : R -> vec) :
  length n0 = K ->
  solve_ivp (f kf (even_split K)) (0, T) n0 y ->
  solve_ivp (f kf (even_split K)) (0, T) n0 z ->
  forall k, (k < K)%nat -> forall t, 0 <= t <= T ->
    get (y t) k = get (z t) k.
Proof.
  intros Hn Hy Hz k.
  induction k as [k IH] using lt_wf_ind. intros Hk t Ht.
  set (a := get kf k).
  set (w := fun s => (get (y s) k - get (z s) k) * exp (a * s)).
  assert (Hw : forall c, 0 <= c <= T -> derivable_pt_lim w c 0).
  { intros c Hc. unfold w.
    replace 0 with (0 * exp (a * c)) by ring.
    apply (integrating_factor (fun s => get (y s) k - get (z s) k) a 0 c).
    pose proof (component_ode K kf n0 T y k c Hn Hk Hy Hc) as Dy.
    pose proof (component_ode K kf n0 T z k c Hn Hk Hz Hc) as Dz.
    rewrite (big_sum_ext k
               (fun i => get kf i * get (y c) i / INR (K - i - 1))
               (fun i => get kf i * get (z c) i / INR (K - i - 1))) in Dy
      by (intros i Hi; rewrite (IH i Hi) by (try lia; exact Hc);
          reflexivity).
    fold a in Dy, Dz.
    match type of Dz with
    | derivable_pt_lim _ _ (_ + ?S) =>
        replace (- a * (get (y c) k - get (z c) k) + 0)
          with ((- a * get (y c) k + S) - (- a * get (z c) k + S)) by ring
    end.
    apply (derivable_pt_lim_minus (fun s => get (y s) k)
             (fun s => get (z s) k)); assumption. }
  pose proof (null_derivative_constant w 0 T Hw t Ht) as Hc.
  unfold w in Hc.
  destruct Hy as [Hy0 _], Hz as [Hz0 _]. simpl in Hy0, Hz0.
  rewrite Hy0, Hz0 in Hc.
  pose proof (exp_pos (a * t)) as He.
  assert (E : (get (y t) k - get (z t) k) * exp (a * t) = 0)
    by (rewrite Hc; ring).
  apply Rmult_integral in E. destruct E as [E|E]; lra.
Qed.

(** X4: the initial value problem has at most one trajectory: two
    solutions that [solve_ivp] may approximate from the same initial state
    agree at every time of the span. *)
Theorem X4_trajectory_unique (K : nat) (kf n0 : vec) (M : matrix) (T : R)
  (y z : R -> vec) (t : R) :
  fsd K = inr M -> length n0 = K ->
  solve_ivp (f kf M) (0, T) n0 y ->
  solve_ivp (f kf M) (0, T) n0 z ->
  0 <= t <= T -> y t = z t.
Proof.
  intros HM Hn Hy Hz Ht. apply fsd_inversion in HM. subst M.
  pose proof Hy as [_ [Hly _]]. pose proof Hz as [_ [Hlz _]].
  apply nth_ext with (d := 0) (d' := 0).
  - rewrite Hly, Hlz. reflexivity.
  - intros k Hk. rewrite Hly, Hn in Hk.
    apply (trajectory_unique_component K kf n0 T y z); assumption.
Qed.

Lemma X4_trajectory_unique_witness :
  [42 * exp (- (1 / 100) * 50); 2 * 42 - 42 * exp (- (1 / 100) * 50)]
  = [42 * exp (- (1 / 100) * 50); 2 * 42 - 42 * exp (- (1 / 100) * 50)].
Proof.
  apply (X4_trajectory_unique 2 [1 / 100; 0] [42; 42] (even_split 2) 100
           (fun t => [42 * exp (- (1 / 100) * t);
                      2 * 42 - 42 * exp (- (1 / 100) * t)])
           (fun t => [42 * exp (- (1 / 100) * t);
                      2 * 42 - 42 * exp (- (1 / 100) * t)])
           50);
    [apply fsd_even_split | reflexivity | apply two_class_solves
    | apply two_class_solves | lra].
Defined.


(** *** The median diameter and the rates *)

Lemma descending_tail (a : R) (l : vec) :
  descending (a :: l) -> descending l /\ forall x, In x l -> x < a.
Proof.
  intros H. split.
  - intros i j Hij Hj. apply (H (S i) (S j)); simpl; lia.
  - intros x Hx. apply (In_nth _ _ 0) in Hx. destruct Hx as [j [Hj <-]].
    apply (H 0%nat (S j)); simpl; lia.
Qed.

Lemma insert_above (x : R) (l : vec) :
  (forall y, In y l -> y < x) -> insert x l = l ++ [x].
Proof.
  induction l as [|y t IH]; intros H; simpl; [reflexivity|].
  destruct (Rle_dec x y) as [Hle|_].
  - assert (y < x) by (apply H; left; reflexivity). lra.
  - rewrite IH by (intros z Hz; apply H; right; exact Hz). reflexivity.
Qed.

(** Sorting a strictly decreasing array reverses it. *)
Lemma sort_descending (l : vec) : descending l -> sort l = rev l.
Proof.
  induction l as [|a t IH]; intros H; [reflexivity|].
  apply descending_tail in H. destruct H as [Ht Ha].
  simpl. rewrite IH by exact Ht.
  apply insert_above. intros y Hy. apply Ha. apply in_rev. exact Hy.
Qed.

Lemma get_rev (l : vec) (i : nat) :
  (i < length l)%nat -> get (rev l) i = get l (length l - S i).
Proof. intros Hi. unfold get. apply rev_nth. exact Hi. Qed.

Lemma median_descending (l : vec) :
  descending l -> l <> [] ->
  median l =
  if Nat.even (length l)
  then (get l (length l / 2) + get l (length l / 2 - 1)) / 2
  else get l (length l / 2).
Proof.
  intros Hd Hne. unfold median. rewrite sort_descending by exact Hd.
  assert (Hn : (0 < length l)%nat)
    by (destruct l; [congruence | simpl; lia]).
  assert (Hhalf : (length l / 2 < length l)%nat) by (apply Nat.div_lt; lia).
  destruct (Nat.even (length l)) eqn:E.
  - apply Nat.even_spec in E. destruct E as [m Hm].
    assert (Hdiv : (length l / 2 = m)%nat)
      by (rewrite Hm, Nat.mul_comm; apply Nat.div_mul; lia).
    rewrite !get_rev by lia. rewrite Hdiv.
    replace (length l - S (m - 1))%nat with m by lia.
    replace (length l - S m)%nat with (m - 1)%nat by lia.
    reflexivity.
  - assert (Ho : Nat.odd (length l) = true)
      by (unfold Nat.odd; rewrite E; reflexivity).
    apply Nat.odd_spec in Ho. destruct Ho as [m Hm].
    assert (Hdiv : (length l / 2 = m)%nat).
    { rewrite Hm. replace (2 * m + 1)%nat with (1 + m * 2)%nat by lia.
      rewrite Nat.div_add by lia. reflexivity. }
    rewrite get_rev by lia. rewrite Hdiv.
    replace (length l - S m)%nat with m by lia. reflexivity.
Qed.

Lemma diameters_descending (K : Z) (K_range : Z * Z) :
  (fst K_range < snd K_range)%Z -> descending (diameters K K_range).
Proof.
  intros Hrange i j Hij Hj. rewrite diameters_length in Hj.
  assert (HK : (2 <= K)%Z) by lia.
  assert (H1 : 1 < IZR K) by (apply IZR_lt; lia).
  assert (Hlt : IZR (fst K_range) < IZR (snd K_range))
    by (apply IZR_lt; exact Hrange).
  rewrite !diameters_get by lia. apply power_10_lt.
  assert (INR i < INR j) by (apply lt_INR; exact Hij).
  assert ((IZR (fst K_range) - IZR (snd K_range)) / (IZR K - 1) < 0).
  { apply Rmult_neg_pos; [lra|]. apply Rinv_0_lt_compat. lra. }
  nra.
Qed.

Lemma diameters_nonempty (K : Z) (K_range : Z * Z) :
  (1 <= K)%Z -> diameters K K_range <> [].
Proof.
  intros HK E. apply (f_equal (@length R)) in E.
  rewrite diameters_length in E. simpl in E. lia.
Qed.

(** X8: for an odd number of classes the median diameter is the diameter of
    the middle class, which therefore fragments at exactly the average rate
    whatever [theta1]; for an even number it is the arithmetic mean of the
    two middle diameters, and no class has that diameter. *)
Theorem X8_median_diameter (K : Z) (K_range : Z * Z) :
  (1 <= K)%Z -> (fst K_range < snd K_range)%Z ->
  (Nat.even (Z.to_nat K) = false ->
   d_median (diameters K K_range)
   = get (diameters K K_range) (Z.to_nat K / 2) /\
   forall kbar th,
     get (k_frag kbar th (diameters K K_range)) (Z.to_nat K / 2) = kbar) /\
  (Nat.even (Z.to_nat K) = true ->
   d_median (diameters K K_range)
   = (get (diameters K K_range) (Z.to_nat K / 2 - 1)
      + get (diameters K K_range) (Z.to_nat K / 2)) / 2 /\
   forall k, (k < Z.to_nat K)%nat ->
     get (diameters K K_range) k <> d_median (diameters K K_range)).
Proof.
  intros HK Hrange.
  pose proof (diameters_descending K K_range Hrange) as Hd.
  pose proof (median_descending _ Hd (diameters_nonempty K K_range HK)) as Hm.
  rewrite diameters_length in Hm. fold (d_median (diameters K K_range)) in Hm.
  assert (Hhalf : (Z.to_nat K / 2 < Z.to_nat K)%nat)
    by (apply Nat.div_lt; lia).
  split; intros E; rewrite E in Hm.
  - split; [exact Hm|]. intros kbar th.
    apply k_frag_at_median; [rewrite diameters_length; exact Hhalf|].
    symmetry. exact Hm.
  - split; [rewrite Hm; lra|].
    apply Nat.even_spec in E. destruct E as [h Hh].
    assert (Hdiv : (Z.to_nat K / 2 = h)%nat)
      by (rewrite Hh, Nat.mul_comm; apply Nat.div_mul; lia).
    rewrite Hdiv in Hm.
    assert (Hmid : get (diameters K K_range) h
                   < get (diameters K K_range) (h - 1))
      by (apply Hd; [lia | rewrite diameters_length; lia]).
    intros k Hk. rewrite Hm.
    destruct (Nat.lt_ge_cases k h) as [Hlo|Hhi].
    + assert (get (diameters K K_range) (h - 1)
              <= get (diameters K K_range) k).
      { destruct (Nat.eq_dec k (h - 1)) as [->|Hne]; [lra|].
        left. apply Hd; [lia | rewrite diameters_length; lia]. }
      lra.
    + assert (get (diameters K K_range) k
              <= get (diameters K K_range) h).
      { destruct (Nat.eq_dec k h) as [->|Hne]; [lra|].
        left. apply Hd; [lia | rewrite diameters_length; lia]. }
      lra.
Qed.

Lemma X8_median_diameter_witness :
  (Nat.even (Z.to_nat 7) = false ->
   d_median (diameters 7 (-9, -3)%Z)
   = get (diameters 7 (-9, -3)%Z) (Z.to_nat 7 / 2) /\
   forall kbar th,
     get (k_frag kbar th (diameters 7 (-9, -3)%Z)) (Z.to_nat 7 / 2) = kbar) /\
  (Nat.even (Z.to_nat 7) = true ->
   d_median (diameters 7 (-9, -3)%Z)
   = (get (diameters 7 (-9, -3)%Z) (Z.to_nat 7 / 2 - 1)
      + get (diameters 7 (-9, -3)%Z) (Z.to_nat 7 / 2)) / 2 /\
   forall k, (k < Z.to_nat 7)%nat ->
     get (diameters 7 (-9, -3)%Z) k <> d_median (diameters 7 (-9, -3)%Z)).
Proof.
  apply (X8_median_diameter 7 (-9, -3)%Z); simpl; lia.
Defined.

(** X9: with a positive average rate and a positive [theta1] every rate set
    from the power law is positive, the rates strictly decrease from the
    coarsest class to the finest, and consecutive rates are in the constant
    ratio [10^(2*theta1*(min - max)/(K - 1))]. *)
Theorem X9_rates_decrease (K : Z) (K_range : Z * Z) (kbar th : R) (i : nat) :
  (fst K_range < snd K_range)%Z -> 0 < kbar -> 0 < th ->
  (i + 1 < Z.to_nat K)%nat ->
  0 < get (k_frag kbar th (diameters K K_range)) (i + 1) /\
  get (k_frag kbar th (diameters K K_range)) (i + 1)
  < get (k_frag kbar th (diameters K K_range)) i /\
  get (k_frag kbar th (diameters K K_range)) (i + 1)
  = get (k_frag kbar th (diameters K K_range)) i
    * power 10 (2 * th * ((IZR (fst K_range) - IZR (snd K_range))
                          / (IZR K - 1))).
Proof.
  intros Hrange Hkbar Hth Hi.
  assert (HK : (2 <= K)%Z) by lia.
  rewrite !k_frag_get by (rewrite diameters_length; lia).
  assert (Hp : 0 < k_prop kbar th (diameters K K_range)).
  { unfold k_prop.
    pose proof (power_pos (d_median (diameters K K_range)) (2 * th)).
    apply Rmult_lt_0_compat; [exact Hkbar|].
    apply Rinv_0_lt_compat. assumption. }
  pose proof (diameters_descending K K_range Hrange i (i + 1)%nat) as Hd.
  rewrite diameters_length in Hd.
  assert (Hlt : get (diameters K K_range) (i + 1)
                < get (diameters K K_range) i) by (apply Hd; lia).
  assert (Hpos : 0 < get (diameters K K_range) (i + 1))
    by (rewrite diameters_get by lia; apply power_pos).
  split; [|split].
  - apply Rmult_lt_0_compat; [exact Hp | apply power_pos].
  - apply Rmult_lt_compat_l; [exact Hp|].
    unfold power. apply Rlt_Rpower_l; lra.
  - rewrite !diameters_get by lia. unfold power.
    rewrite !Rpower_mult, Rmult_assoc, <- Rpower_plus.
    do 2 f_equal. rewrite plus_INR. simpl INR. ring.
Qed.

Lemma X9_rates_decrease_witness :
  0 < get (k_frag (1 / 100) (1 / 4) (diameters 3 (-9, -3)%Z)) (1 + 1) /\
  get (k_frag (1 / 100) (1 / 4) (diameters 3 (-9, -3)%Z)) (1 + 1)
  < get (k_frag (1 / 100) (1 / 4) (diameters 3 (-9, -3)%Z)) 1 /\
  get (k_frag (1 / 100) (1 / 4) (diameters 3 (-9, -3)%Z)) (1 + 1)
  = get (k_frag (1 / 100) (1 / 4) (diameters 3 (-9, -3)%Z)) 1
    * power 10 (2 * (1 / 4) * ((-9 - -3) / (3 - 1))).
Proof.
  apply (X9_rates_decrease 3 (-9, -3)%Z (1 / 100) (1 / 4) 1);
    [simpl; lia | lra | lra | simpl; lia].
Defined.

Lemma diameters_equal_exponents (K : Z) (K_range : Z * Z) (k : nat) :
  fst K_range = snd K_range -> (k < Z.to_nat K)%nat ->
  get (diameters K K_range) k = power 10 (IZR (fst K_range)).
Proof.
  intros Heq Hk. destruct (Z.eq_dec K 1) as [->|Hne].
  - replace k with 0%nat by lia. rewrite Heq. reflexivity.
  - rewrite diameters_get by lia. f_equal.
    assert (1 < IZR K) by (apply IZR_lt; lia).
    rewrite Heq. field. lra.
Qed.

Lemma median_constant (l : vec) (c : R) :
  l <> [] -> (forall x, In x l -> x = c) -> median l = c.
Proof.
  intros Hne Hall.
  assert (Hlen : length (sort l) = length l)
    by (apply Permutation_length, sort_perm).
  assert (Hn : (0 < length l)%nat)
    by (destruct l; [congruence | simpl; lia]).
  assert (Hget : forall i, (i < length l)%nat -> get (sort l) i = c).
  { intros i Hi. apply Hall.
    apply (Permutation_in _ (sort_perm l)).
    unfold get. apply nth_In. lia. }
  assert (Hhalf : (length l / 2 < length l)%nat) by (apply Nat.div_lt; lia).
  unfold median. destruct (Nat.even (length l)).
  - rewrite !Hget by lia. lra.
  - apply Hget. exact Hhalf.
Qed.

(** X10: when the two exponents of the range are equal (the range slider
    allows it) all diameters coincide and every class gets exactly the
    average rate, whatever [theta1]. *)
Theorem X10_equal_exponents_uniform_rates (K : Z) (K_range : Z * Z)
  (kbar th : R) (k : nat) :
  fst K_range = snd K_range -> (k < Z.to_nat K)%nat ->
  get (diameters K K_range) k = power 10 (IZR (fst K_range)) /\
  get (k_frag kbar th (diameters K K_range)) k = kbar.
Proof.
  intros Heq Hk.
  split; [apply diameters_equal_exponents; assumption|].
  apply k_frag_at_median; [rewrite diameters_length; exact Hk|].
  rewrite diameters_equal_exponents by assumption.
  symmetry. apply median_constant.
  - apply diameters_nonempty. lia.
  - intros x Hx. apply (In_nth _ _ 0) in Hx. destruct Hx as [j [Hj <-]].
    rewrite diameters_length in Hj.
    apply (diameters_equal_exponents K K_range j); assumption.
Qed.

Lemma X10_equal_exponents_uniform_rates_witness :
  get (diameters 3 (-5, -5)%Z) 1 = power 10 (-5) /\
  get (k_frag (1 / 100) (1 / 4) (diameters 3 (-5, -5)%Z)) 1 = 1 / 100.
Proof.
  apply (X10_equal_exponents_uniform_rates 3 (-5, -5)%Z (1 / 100) (1 / 4) 1);
    [reflexivity | simpl; lia].
Defined.

(** *** The rates do not depend on the unit of length *)

Lemma insert_scale (c x : R) (l : vec) :
  0 < c ->
  insert (c * x) (map (Rmult c) l) = map (Rmult c) (insert x l).
Proof.
  intros Hc. induction l as [|y t IH]; simpl; [reflexivity|].
  destruct (Rle_dec (c * x) (c * y)) as [H1|H1];
    destruct (Rle_dec x y) as [H2|H2].
  - reflexivity.
  - exfalso. apply H2. apply (Rmult_le_reg_l c); assumption.
  - exfalso. apply H1. apply Rmult_le_compat_l; lra.
  - simpl. rewrite IH. reflexivity.
Qed.

Lemma sort_scale (c : R) (l : vec) :
  0 < c -> sort (map (Rmult c) l) = map (Rmult c) (sort l).
Proof.
  intros Hc. induction l as [|x t IH]; simpl; [reflexivity|].
  rewrite IH. apply insert_scale. exact Hc.
Qed.

Lemma get_scale (c : R) (l : vec) (i : nat) :
  get (map (Rmult c) l) i = c * get l i.
Proof.
  unfold get. revert i; induction l as [|x t IH]; intros [|i]; simpl;
    try lra; auto.
Qed.

Lemma median_scale (c : R) (l : vec) :
  0 < c -> median (map (Rmult c) l) = c * median l.
Proof.
  intros Hc. unfold median.
  rewrite sort_scale by exact Hc. rewrite length_map.
  destruct (Nat.even (length l)); rewrite !get_scale; lra.
Qed.

Lemma linspace_shift (a b s : R) (n : nat) :
  map (power 10) (linspace (a + s) (b + s) n) =
  map (Rmult (power 10 s)) (map (power 10) (linspace a b n)).
Proof.
  assert (E : forall x, power 10 (x + s) = power 10 s * power 10 x).
  { intros x. unfold power. rewrite Rpower_plus. ring. }
  destruct n as [|[|n]].
  - reflexivity.
  - simpl. rewrite E. reflexivity.
  - change (linspace (a + s) (b + s) (S (S n)))
      with (map (fun i => INR i * ((b + s - (a + s)) / INR (S n)) + (a + s))
              (arange (S n)) ++ [b + s]).
    change (linspace a b (S (S n)))
      with (map (fun i => INR i * ((b - a) / INR (S n)) + a)
              (arange (S n)) ++ [b]).
    rewrite !map_app, !map_map. f_equal.
    + apply map_ext. intros i. rewrite <- E. f_equal.
      replace (b + s - (a + s)) with (b - a) by ring. ring.
    + simpl. rewrite E. reflexivity.
Qed.

(** X11: moving the range of exponents by a whole number [s], that is
    measuring every diameter in another unit, multiplies the diameters by
    [10^s] and leaves every fragmentation rate as it is: the rates depend on
    the width of the range only. *)
Theorem X11_rates_unit_free (K : Z) (K_range : Z * Z) (s : Z)
  (kbar th : R) :
  diameters K (fst K_range + s, snd K_range + s)%Z
  = map (Rmult (power 10 (IZR s))) (diameters K K_range) /\
  k_frag kbar th (diameters K (fst K_range + s, snd K_range + s)%Z)
  = k_frag kbar th (diameters K K_range).
Proof.
  assert (Hd : diameters K (fst K_range + s, snd K_range + s)%Z
               = map (Rmult (power 10 (IZR s))) (diameters K K_range)).
  { unfold diameters. simpl fst. simpl snd.
    rewrite !plus_IZR. apply linspace_shift. }
  split; [exact Hd|]. rewrite Hd.
  set (c := power 10 (IZR s)). set (ds := diameters K K_range).
  assert (Hc : 0 < c) by apply power_pos.
  destruct (Z.le_gt_cases K 0) as [HK|HK].
  - assert (E : ds = []).
    { apply length_zero_iff_nil. unfold ds. rewrite diameters_length. lia. }
    rewrite E. reflexivity.
  - assert (Hm : 0 < d_median ds).
    { apply median_positive; [apply diameters_nonempty; lia|].
      apply (d_positive K K_range). apply d_value. lia. }
    unfold k_frag. rewrite map_map. apply map_ext_in. intros x Hx.
    assert (Hxpos : 0 < x).
    { pose proof (d_positive K K_range ds (d_value K K_range ltac:(lia)))
        as Hall.
      rewrite Forall_forall in Hall. apply Hall. exact Hx. }
    unfold k_prop, d_median. rewrite median_scale by exact Hc.
    fold (d_median ds). unfold power.
    rewrite <- !Rpower_mult_distr by assumption.
    pose proof (exp_pos (2 * th * ln c)) as H1.
    pose proof (exp_pos (2 * th * ln (d_median ds))) as H2.
    unfold Rpower in *. field. split; lra.
Qed.

(** *** The column shown in the bar chart *)

Lemma soln_y_length (y : R -> vec) (T : Z) :
  length (soln_y y T) = Z.to_nat T.
Proof. unfold soln_y, t_eval. rewrite !length_map, length_seq. reflexivity. Qed.

Lemma soln_y_column (y : R -> vec) (T : Z) (j : nat) :
  (j < Z.to_nat T)%nat -> nth_error (soln_y y T) j = Some (y (INR j)).
Proof.
  intros Hj. unfold soln_y, t_eval. rewrite map_map.
  rewrite (nth_error_nth' _ (y 0)) by (rewrite length_map, length_seq; lia).
  f_equal. apply (nth_map_seq (fun i => y (INR i))). exact Hj.
Qed.

(** X12: the guard [bar_ts < T] of the bar chart bounds the time step from
    above only.  For [0 <= bar_ts < T] the chart shows the state at time
    [bar_ts]; for [bar_ts >= T] no chart is drawn; a negative [bar_ts] down
    to [-T] shows the state at time [T + bar_ts], counted from the end; and
    [bar_ts < -T] raises IndexError. *)
Theorem X12_bar_chart_column (y : R -> vec) (T bar_ts : Z) :
  (1 <= T)%Z ->
  bar_chart (soln_y y T) bar_ts T =
  if (T <=? bar_ts)%Z then ret None
  else if (0 <=? bar_ts)%Z then ret (Some (y (IZR bar_ts)))
  else if (- T <=? bar_ts)%Z then ret (Some (y (IZR (T + bar_ts))))
  else raise IndexError.
Proof.
  intros HT. unfold bar_chart, getitem.
  rewrite soln_y_length, Z2Nat.id by lia.
  destruct (Z.ltb_spec bar_ts T) as [Hlt|Hge];
    destruct (Z.leb_spec T bar_ts) as [Hle|Hgt]; try lia;
    [|reflexivity].
  destruct (Z.leb_spec 0 bar_ts) as [H0|H0]; simpl andb; cbv iota.
  - rewrite soln_y_column by lia. simpl.
    rewrite INR_IZR_INZ, Z2Nat.id by lia. reflexivity.
  - destruct (Z.leb_spec (- T) bar_ts) as [H1|H1];
      destruct (Z.ltb_spec bar_ts 0) as [H2|H2]; try lia; simpl.
    + rewrite soln_y_column by lia. simpl.
      rewrite INR_IZR_INZ, Z2Nat.id by lia. reflexivity.
    + reflexivity.
Qed.

Lemma X12_bar_chart_column_witness :
  bar_chart (soln_y (fun t => [42 * exp (- (1 / 100) * t)]) 100) (-1) 100
  = ret (Some [42 * exp (- (1 / 100) * 99)]) /\
  bar_chart (soln_y (fun t => [42 * exp (- (1 / 100) * t)]) 100) (-101) 100
  = raise IndexError.
Proof.
  split.
  - rewrite (X12_bar_chart_column _ 100 (-1)) by lia. reflexivity.
  - rewrite (X12_bar_chart_column _ 100 (-101)) by lia. reflexivity.
Defined.

(** *** Classes off the median *)

Lemma power_inj_base (x m e : R) :
  0 < x -> 0 < m -> e <> 0 -> power x e = power m e -> x = m.
Proof.
  intros Hx Hm He H. unfold power, Rpower in H.
  apply exp_inv in H. apply Rmult_eq_reg_l in H; [|exact He].
  apply ln_inv; assumption.
Qed.

Lemma k_frag_off_median (kbar th : R) (ds : vec) (k : nat) :
  kbar <> 0 -> th <> 0 -> (k < length ds)%nat ->
  0 < get ds k -> 0 < d_median ds -> get ds k <> d_median ds ->
  get (k_frag kbar th ds) k <> kbar.
Proof.
  intros Hkbar Hth Hk Hpos Hm Hne E.
  rewrite k_frag_get in E by exact Hk. unfold k_prop in E.
  pose proof (power_pos (d_median ds) (2 * th)) as Hp.
  apply Hne. apply (power_inj_base _ _ (2 * th)); try assumption; [lra|].
  apply (Rmult_eq_reg_l (kbar / power (d_median ds) (2 * th))).
  - rewrite E. field. lra.
  - unfold Rdiv. apply Rmult_integral_contrapositive_currified;
      [exact Hkbar | apply Rinv_neq_0_compat; lra].
Qed.

(** X13: for an even number of classes, a non-zero average rate and a
    non-zero [theta1], no class fragments at the average rate: the median
    diameter the average refers to lies strictly between the two middle
    classes. *)
Theorem X13_even_no_class_at_average (K : Z) (K_range : Z * Z)
  (kbar th : R) (k : nat) :
  (fst K_range < snd K_range)%Z -> Nat.even (Z.to_nat K) = true ->
  kbar <> 0 -> th <> 0 -> (k < Z.to_nat K)%nat ->
  get (diameters K K_range) (Z.to_nat K / 2)
  < d_median (diameters K K_range)
  < get (diameters K K_range) (Z.to_nat K / 2 - 1) /\
  get (k_frag kbar th (diameters K K_range)) k <> kbar.
Proof.
  intros Hrange E Hkbar Hth Hk.
  assert (HK : (1 <= K)%Z) by lia.
  pose proof (diameters_descending K K_range Hrange) as Hd.
  pose proof (median_descending _ Hd (diameters_nonempty K K_range HK)) as Hm.
  rewrite diameters_length, E in Hm.
  fold (d_median (diameters K K_range)) in Hm.
  apply Nat.even_spec in E. destruct E as [h Hh].
  assert (Hdiv : (Z.to_nat K / 2 = h)%nat)
    by (rewrite Hh, Nat.mul_comm; apply Nat.div_mul; lia).
  rewrite Hdiv in *.
  assert (Hmid : get (diameters K K_range) h
                 < get (diameters K K_range) (h - 1))
    by (apply Hd; [lia | rewrite diameters_length; lia]).
  split; [rewrite Hm; lra|].
  pose proof (d_positive K K_range _ (d_value K K_range ltac:(lia))) as Hall.
  rewrite Forall_forall in Hall.
  assert (Hpos : forall j, (j < Z.to_nat K)%nat ->
                   0 < get (diameters K K_range) j).
  { intros j Hj. apply Hall. unfold get. apply nth_In.
    change (j < length (diameters K K_range))%nat.
    rewrite diameters_length. exact Hj. }
  apply k_frag_off_median; try assumption.
  - rewrite diameters_length. exact Hk.
  - apply Hpos. exact Hk.
  - rewrite Hm. pose proof (Hpos h ltac:(lia)).
    pose proof (Hpos (h - 1)%nat ltac:(lia)). lra.
  - rewrite Hm. destruct (Nat.lt_ge_cases k h) as [Hlo|Hhi].
    + assert (get (diameters K K_range) (h - 1)
              <= get (diameters K K_range) k).
      { destruct (Nat.eq_dec k (h - 1)) as [->|Hne]; [lra|].
        left. apply Hd; [lia | rewrite diameters_length; lia]. }
      lra.
    + assert (get (diameters K K_range) k
              <= get (diameters K K_range) h).
      { destruct (Nat.eq_dec k h) as [->|Hne]; [lra|].
        left. apply Hd; [lia | rewrite diameters_length; lia]. }
      lra.
Qed.

Lemma X13_even_no_class_at_average_witness :
  get (diameters 4 (-9, -3)%Z) (Z.to_nat 4 / 2)
  < d_median (diameters 4 (-9, -3)%Z)
  < get (diameters 4 (-9, -3)%Z) (Z.to_nat 4 / 2 - 1) /\
  get (k_frag (1 / 100) (1 / 4) (diameters 4 (-9, -3)%Z)) 1 <> 1 / 100.
Proof.
  apply (X13_even_no_class_at_average 4 (-9, -3)%Z (1 / 100) (1 / 4) 1);
    [simpl; lia | reflexivity | lra | lra | simpl; lia].
Defined.

(** *** The coarsest and the smallest class *)

(** X6: the coarsest class receives no fragments: whatever the number of
    classes and the state, its derivative is [-k_frag[0] * n[0]]. *)
Theorem X6_coarsest_class_receives_nothing (K : nat) (kf n : vec) (t : R)
  (M : matrix) :
  (1 <= K)%nat -> fsd K = inr M -> length n = K ->
  get (f kf M t n) 0 = - get kf 0 * get n 0.
Proof.
  intros HK HM Hn. apply fsd_inversion in HM. subst M.
  rewrite rhs_even_split by (try assumption; lia).
  simpl big_sum. ring.
Qed.

Lemma X6_coarsest_class_receives_nothing_witness :
  get (f [3; 2; 1] (even_split 3) 0 [42; 42; 42]) 0
  = - get [3; 2; 1] 0 * get [42; 42; 42] 0.
Proof.
  apply (X6_coarsest_class_receives_nothing 3 [3; 2; 1] [42; 42; 42] 0
           (even_split 3));
    [lia | apply fsd_even_split | reflexivity].
Defined.



(** *** What a Runge-Kutta method does to the total *)

Lemma vadd_length (a b : vec) :
  length (vadd a b) = Nat.min (length a) (length b).
Proof.
  revert b; induction a as [|x a IH]; intros [|y b]; simpl; auto.
Qed.

Lemma sum_vadd (a b : vec) :
  length a = length b -> sum (vadd a b) = sum a + sum b.
Proof.
  revert b; induction a as [|x a IH]; intros [|y b] H; simpl in *;
    try discriminate; [lra|].
  rewrite IH by lia. lra.
Qed.

Lemma sum_vscale (c : R) (a : vec) : sum (vscale c a) = c * sum a.
Proof.
  unfold vscale. induction a as [|x a IH]; simpl; [lra|].
  rewrite IH. lra.
Qed.

Lemma vscale_length (c : R) (a : vec) : length (vscale c a) = length a.
Proof. unfold vscale. apply length_map. Qed.

Lemma rk_update_total (K : nat) (kf : vec) (stages : list (R * (R * vec)))
  (y : vec) :
  (1 <= K)%nat -> length y = K ->
  Forall (fun st => length (snd (snd st)) = K) stages ->
  length (rk_update (f kf (even_split K)) y stages) = K /\
  sum (rk_update (f kf (even_split K)) y stages)
  = sum y - get kf (K - 1) * stage_amount (K - 1) stages.
Proof.
  intros HK. revert y.
  induction stages as [|[w [t Y]] rest IH]; intros y Hy Hst.
  - simpl. split; [exact Hy | ring].
  - apply Forall_cons_iff in Hst. destruct Hst as [HY Hrest]. simpl in HY.
    assert (Hlen : length (vadd y (vscale w (f kf (even_split K) t Y))) = K).
    { rewrite vadd_length, vscale_length, f_length, Hy, HY.
      apply Nat.min_id. }
    destruct (IH _ Hlen Hrest) as [IH1 IH2].
    simpl rk_update. split; [exact IH1|].
    rewrite IH2.
    rewrite sum_vadd by (rewrite vscale_length, f_length; lia).
    rewrite sum_vscale, rhs_total by assumption.
    unfold stage_amount. simpl. ring.
Qed.

(** X7: a Runge-Kutta update of a state, the state plus a weighted sum of
    values of [f], changes the total concentration by [-k_frag[K-1]] times
    the weighted amount the stage states hold in the smallest class, and by
    nothing else.  So when the smallest class does not fragment, every
    state such a method produces from [n_0] has the total of [n_0]: the
    tracked loss [sum(n_0) - sum(state)] is zero. *)
Theorem X7_rk_total_change (K : nat) (kf n0 : vec) (M : matrix) :
  (1 <= K)%nat -> fsd K = inr M -> length n0 = K ->
  (forall y stages,
     length y = K ->
     Forall (fun st => length (snd (snd st)) = K) stages ->
     sum (rk_update (f kf M) y stages)
     = sum y - get kf (K - 1) * stage_amount (K - 1) stages) /\
  (get kf (K - 1) = 0 ->
   forall y, rk_outputs (f kf M) n0 y -> sum n0 - sum y = 0).
Proof.
  intros HK HM Hn. apply fsd_inversion in HM. subst M.
  split.
  - intros y stages Hy Hst. apply rk_update_total; assumption.
  - intros Hkf y Hout.
    assert (H : length y = K /\ sum y = sum n0).
    { induction Hout as [|y stages Hout [IHl IHs] Hst].
      - split; [exact Hn | reflexivity].
      - rewrite Hn in Hst.
        destruct (rk_update_total K kf stages y HK IHl Hst) as [H1 H2].
        split; [exact H1|]. rewrite H2, Hkf, IHs. ring. }
    destruct H as [_ H]. rewrite H. ring.
Qed.

Lemma X7_rk_total_change_witness :
  (forall y stages,
     length y = 2%nat ->
     Forall (fun st => length (snd (snd st)) = 2%nat) stages ->
     sum (rk_update (f [1 / 100; 0] (even_split 2)) y stages)
     = sum y - get [1 / 100; 0] (2 - 1) * stage_amount (2 - 1) stages) /\
  (get [1 / 100; 0] (2 - 1) = 0 ->
   forall y,
     rk_outputs (f [1 / 100; 0] (even_split 2)) [42; 42] y ->
     sum [42; 42] - sum y = 0).
Proof.
  apply (X7_rk_total_change 2 [1 / 100; 0] [42; 42] (even_split 2));
    [lia | apply fsd_even_split | reflexivity].
Defined.
